(** * The authentication driver of google-calendar-mcp (src/auth-server.ts)

    A shallow embedding of the command-line driver that runs the local OAuth
    callback server: the argument parser [parseAuthServerArgs], the
    orchestrating function [runAuthServer] with its poll and SIGINT handlers,
    and the top-level block that wires them together.

    The driver is an event-loop program.  Its synchronous start-up is a
    function producing a [process] state; what happens afterwards (the timer
    firing, a signal arriving, an awaited promise settling, the server
    handling a request) is a [step] function over [event]s.  Every observable
    action is appended to a chronological list of [effect]s. *)

From Stdlib Require Import String Ascii List Bool Arith ZArith Lia.
From Equations Require Import Equations.
Import ListNotations.

Local Open Scope string_scope.
Local Open Scope list_scope.

(** ** JavaScript strings and values used by the driver *)

(** [s.startsWith(p)] *)
Definition startsWith (s p : string) : bool := String.prefix p s.

(** The line feed of the ["...\n"] literals. *)
Definition nl : string := String "010"%char EmptyString.

(** [if (x)] on a value of type [string | undefined]: [undefined] and the
    empty string are falsy, every other string is truthy. *)
Definition truthy (x : option string) : bool :=
  match x with
  | None => false
  | Some s => negb (s =? "")
  end.

(** A thrown value: an [Error] carrying a message, or anything else. *)
Inductive thrown : Type :=
| ErrorObject (message : string)
| OtherValue.

(** [error instanceof Error ? error.message : 'Unknown error'] *)
Definition error_text (error : thrown) : string :=
  match error with
  | ErrorObject message => message
  | OtherValue => "Unknown error"
  end.

(** ** Observable actions *)

Inductive effect : Type :=
| ConsoleError (line : string)            (* console.error(line) *)
| StderrWrite (chunk : string)            (* process.stderr.write(chunk) *)
| SetCredentialsPath (path : string)      (* setCredentialsPath(path) *)
| InitializeOAuth2Client                  (* initializeOAuth2Client() *)
| NewAuthServer                           (* new AuthServer(oauth2Client) *)
| Start (openBrowser : bool)              (* authServer.start(openBrowser) *)
| Stop                                    (* authServer.stop() *)
| SetInterval (ms : Z)                    (* setInterval(callback, ms) *)
| ClearInterval                           (* clearInterval(pollInterval) *)
| OnSigint                                (* process.on('SIGINT', handler) *)
| ProcessExit (code : Z).                 (* process.exit(code) *)

Definition is_stop (e : effect) : bool :=
  match e with Stop => true | _ => false end.

Definition is_exit (e : effect) : bool :=
  match e with ProcessExit _ => true | _ => false end.

Definition is_set_credentials (e : effect) : bool :=
  match e with SetCredentialsPath _ => true | _ => false end.

(** Number of calls of [authServer.stop()] recorded in a log. *)
Definition stop_calls (log : list effect) : nat :=
  List.length (filter is_stop log).

(** Position of the first element satisfying [p]. *)
Fixpoint position (p : effect -> bool) (log : list effect) : option nat :=
  match log with
  | [] => None
  | e :: log' =>
      if p e then Some 0
      else option_map S (position p log')
  end.

(** [a] happens in the log, and strictly before the first [b] if any. *)
Definition happens_before (a b : effect -> bool) (log : list effect) : bool :=
  match position a log, position b log with
  | Some i, Some j => (i <? j)%nat
  | Some _, None => true
  | None, _ => false
  end.

(** ** [parseAuthServerArgs] *)

Inductive parsed : Type :=
| Returned (credentialsPath : option string)   (* return { credentialsPath } *)
| Exited (line : string) (code : Z).           (* console.error(line); process.exit(code) *)

(** The [for] loop of lines 10-23, state [(i, credentialsPath)].  It runs
    while [i < args.length]; [args[i]] is read under that guard, [args[i+1]]
    under the guard [i + 1 < args.length]. *)
Equations parse_loop (args : list string) (i : nat) (credentialsPath : option string)
  : parsed by wf (List.length args - i) lt :=
parse_loop args i credentialsPath with lt_dec i (List.length args) := {
  | right _ => Returned credentialsPath
  | left _ =>
      let arg := nth i args "" in
      if arg =? "--credentials-file" then
        if ((i + 1 <? List.length args)%nat)
           && negb (startsWith (nth (i + 1) args "") "--")
        then parse_loop args (i + 2) (Some (nth (i + 1) args ""))
        else Exited ("Option " ++ arg ++ " requires a value") 1
      else parse_loop args (i + 1) credentialsPath }.
Next Obligation. lia. Qed.
Next Obligation. lia. Qed.

(** [process.argv.slice(2)], then the loop from [i = 0] with
    [credentialsPath] undefined. *)
Definition parseAuthServerArgs (argv : list string) : parsed :=
  let args := skipn 2 argv in
  parse_loop args 0 None.

(** The same loop read off the not yet consumed suffix [args.slice(i)]; used
    to reason about [parse_loop], to which it is proved equal below. *)
Fixpoint parse_rest (rest : list string) (credentialsPath : option string) : parsed :=
  match rest with
  | [] => Returned credentialsPath
  | arg :: rest' =>
      if arg =? "--credentials-file" then
        match rest' with
        | value :: rest'' =>
            if negb (startsWith value "--") then parse_rest rest'' (Some value)
            else Exited ("Option " ++ arg ++ " requires a value") 1
        | [] => Exited ("Option " ++ arg ++ " requires a value") 1
        end
      else parse_rest rest' credentialsPath
  end.

(** Every occurrence of the option in [args] is followed by an argument that
    does not start with two dashes. *)
Definition every_option_has_value (args : list string) : Prop :=
  forall i,
    nth_error args i = Some "--credentials-file" ->
    exists value, nth_error args (S i) = Some value /\ startsWith value "--" = false.

(** Some occurrence of the option in [args] is the last argument or is
    followed by an argument that starts with two dashes. *)
Definition some_option_lacks_value (args : list string) : Prop :=
  exists i,
    nth_error args i = Some "--credentials-file" /\
    (nth_error args (S i) = None \/
     exists next, nth_error args (S i) = Some next /\ startsWith next "--" = true).

(** ** The AuthServer the driver talks to *)

(** Modelled from the spec: the interface of the AuthServer class, which
    lives in [auth/server.js] and is not among the sources at hand.  The
    driver uses its constructor, [start], [stop] and the field
    [authCompletedSuccessfully].  The object is a mutable value of type
    [Server]; each method returns the object's next state.  [start] may throw
    or resolve to a boolean.  [stop] has no failure result, following the
    contract of section 4.1 (stop "never throws; logs/reports but always
    returns").  [serve] stands for whatever the server does on its own
    between two turns of the driver (an HTTP request, a token exchange
    finishing). *)
Class AuthServerOps (Client Server Activity : Type) : Type := {
  newAuthServer : Client -> Server;
  start : bool -> Server -> Server * (thrown + bool);
  stop : Server -> Server;
  authCompletedSuccessfully : Server -> bool;
  serve : Activity -> Server -> Server
}.

(** The two places where the driver awaits [authServer.stop()] after start-up:
    inside the interval callback and inside the SIGINT handler. *)
Inductive continuation : Type :=
| PollCallback
| SigintHandler.

(** What the event loop can deliver to the running driver. *)
Inductive event (Activity : Type) : Type :=
| TimerTick                               (* the interval timer fires *)
| Sigint                                  (* the process receives SIGINT *)
| StopSettled (k : continuation)          (* an awaited stop() resolves *)
| ServerActivity (a : Activity).          (* the server handles something *)

Arguments TimerTick {Activity}.
Arguments Sigint {Activity}.
Arguments StopSettled {Activity} k.
Arguments ServerActivity {Activity} a.

Section Driver.

Context {Client Server Activity : Type}.
Context {ops : AuthServerOps Client Server Activity}.

(** [initializeOAuth2Client()] resolves to a client or throws.  It reads
    the credentials path that [setCredentialsPath] may have overridden;
    that path is its argument here ([None]: the default path). *)
Variable initializeOAuth2Client : option string -> thrown + Client.

(** The state of the running driver. *)
Record process : Type := {
  authServer : option Server;        (* let authServer: AuthServer | null *)
  effects : list effect;             (* everything done so far, in order *)
  pollInterval : bool;               (* the interval timer is armed *)
  sigintListener : bool;             (* the SIGINT handler is registered *)
  pollAwaiting : nat;                (* interval callbacks awaiting stop() *)
  sigintAwaiting : nat;              (* SIGINT handlers awaiting stop() *)
  exitCode : option Z                (* set by process.exit *)
}.

Definition emit (es : list effect) (p : process) : process :=
  {| authServer := authServer p;
     effects := effects p ++ es;
     pollInterval := pollInterval p;
     sigintListener := sigintListener p;
     pollAwaiting := pollAwaiting p;
     sigintAwaiting := sigintAwaiting p;
     exitCode := exitCode p |}.

(** [process.exit(code)]: nothing runs afterwards. *)
Definition exit (code : Z) (p : process) : process :=
  {| authServer := authServer p;
     effects := effects p ++ [ProcessExit code];
     pollInterval := pollInterval p;
     sigintListener := sigintListener p;
     pollAwaiting := pollAwaiting p;
     sigintAwaiting := sigintAwaiting p;
     exitCode := Some code |}.

Definition with_server (s : option Server) (p : process) : process :=
  {| authServer := s;
     effects := effects p;
     pollInterval := pollInterval p;
     sigintListener := sigintListener p;
     pollAwaiting := pollAwaiting p;
     sigintAwaiting := sigintAwaiting p;
     exitCode := exitCode p |}.

(** [clearInterval(pollInterval)] *)
Definition clear_interval (p : process) : process :=
  {| authServer := authServer p;
     effects := effects p ++ [ClearInterval];
     pollInterval := false;
     sigintListener := sigintListener p;
     pollAwaiting := pollAwaiting p;
     sigintAwaiting := sigintAwaiting p;
     exitCode := exitCode p |}.

(** The call [authServer.stop()] whose promise continuation [k] awaits. *)
Definition call_stop (k : continuation) (s : Server) (p : process) : process :=
  {| authServer := Some (stop s);
     effects := effects p ++ [Stop];
     pollInterval := pollInterval p;
     sigintListener := sigintListener p;
     pollAwaiting :=
       match k with PollCallback => S (pollAwaiting p) | SigintHandler => pollAwaiting p end;
     sigintAwaiting :=
       match k with SigintHandler => S (sigintAwaiting p) | PollCallback => sigintAwaiting p end;
     exitCode := exitCode p |}.

(** The continuation [k] resumes: one fewer is waiting. *)
Definition resume (k : continuation) (p : process) : process :=
  {| authServer := authServer p;
     effects := effects p;
     pollInterval := pollInterval p;
     sigintListener := sigintListener p;
     pollAwaiting :=
       match k with PollCallback => Nat.pred (pollAwaiting p) | SigintHandler => pollAwaiting p end;
     sigintAwaiting :=
       match k with SigintHandler => Nat.pred (sigintAwaiting p) | PollCallback => sigintAwaiting p end;
     exitCode := exitCode p |}.

(** The process before anything was done. *)
Definition booted : process :=
  {| authServer := None;
     effects := [];
     pollInterval := false;
     sigintListener := false;
     pollAwaiting := 0;
     sigintAwaiting := 0;
     exitCode := None |}.

Definition failure_message : string :=
  "Authentication failed. Could not start server or validate existing tokens. Check port availability (3000-3004) and try again." ++ nl.

Definition waiting_message : string :=
  "Authentication server started. Please complete the authentication in your browser..." ++ nl.

(** The [catch] block of lines 73-77; [authServer] is the reference held
    when the error was thrown.  No handler of the driver is registered on
    this path, so the awaited [stop()] is one uninterrupted step. *)
Definition catch_block (error : thrown) (p : process) : process :=
  let p := emit [StderrWrite ("Authentication error: " ++ error_text error ++ nl)] p in
  let p :=
    match authServer p with
    | Some s => with_server (Some (stop s)) (emit [Stop] p)
    | None => p
    end in
  exit 1 p.

(** [runAuthServer], lines 29-78, up to the point where the function
    returns to the event loop: either the process has exited, or the poll
    and the SIGINT handler are installed.  [path] is the credentials path
    in force when the function is called. *)
Definition runAuthServer (path : option string) : process :=
  let p := emit [InitializeOAuth2Client] booted in
  match initializeOAuth2Client path with
  | inl error => catch_block error p
  | inr oauth2Client =>
      let p := with_server (Some (newAuthServer oauth2Client)) (emit [NewAuthServer] p) in
      let p := emit [Start true] p in
      match start true (newAuthServer oauth2Client) with
      | (s, inl error) => catch_block error (with_server (Some s) p)
      | (s, inr success) =>
          let p := with_server (Some s) p in
          if negb success && negb (authCompletedSuccessfully s) then
            exit 1 (emit [StderrWrite failure_message] p)
          else if authCompletedSuccessfully s then
            exit 0 (emit [StderrWrite ("Authentication successful." ++ nl)] p)
          else
            let p := emit [StderrWrite waiting_message] p in
            let p := emit [SetInterval 1000; OnSigint] p in
            {| authServer := authServer p;
               effects := effects p;
               pollInterval := true;
               sigintListener := true;
               pollAwaiting := pollAwaiting p;
               sigintAwaiting := sigintAwaiting p;
               exitCode := exitCode p |}
      end
  end.

(** The interval callback of lines 55-62, up to its [await]. *)
Definition poll_callback (p : process) : process :=
  match authServer p with
  | Some s =>
      if authCompletedSuccessfully s then
        call_stop PollCallback s (clear_interval p)
      else p
  | None => p
  end.

(** The SIGINT handler of lines 65-71, up to its [await]; with no server
    there is nothing to await and it exits at once. *)
Definition sigint_handler (p : process) : process :=
  let p := clear_interval p in
  match authServer p with
  | Some s => call_stop SigintHandler s p
  | None => exit 0 p
  end.

(** What follows the [await] in each of the two handlers. *)
Definition after_stop (k : continuation) (p : process) : process :=
  match k with
  | PollCallback =>
      exit 0 (emit [StderrWrite ("Authentication successful. Server stopped." ++ nl)] p)
  | SigintHandler => exit 0 p
  end.

Definition awaiting (k : continuation) (p : process) : nat :=
  match k with
  | PollCallback => pollAwaiting p
  | SigintHandler => sigintAwaiting p
  end.

(** One turn of the event loop.  An exited process does nothing.  The timer
    does not fire when it is not armed and nothing resumes when nobody
    awaits: such events leave the state as it is.  So does a signal for which
    the driver registered no handler: what happens then is not the driver's
    doing, and [runAuthServer] never returns to the event loop without its
    handler registered. *)
Definition step (e : event Activity) (p : process) : process :=
  match exitCode p with
  | Some _ => p
  | None =>
      match e with
      | TimerTick => if pollInterval p then poll_callback p else p
      | Sigint => if sigintListener p then sigint_handler p else p
      | StopSettled k =>
          match awaiting k p with
          | O => p
          | S _ => after_stop k (resume k p)
          end
      | ServerActivity a =>
          match authServer p with
          | Some s => with_server (Some (serve a s)) p
          | None => p
          end
      end
  end.

Definition run (events : list (event Activity)) (p : process) : process :=
  fold_left (fun p e => step e p) events p.

(** A process that did [done] before it did everything else. *)
Definition preceded_by (done : list effect) (p : process) : process :=
  {| authServer := authServer p;
     effects := done ++ effects p;
     pollInterval := pollInterval p;
     sigintListener := sigintListener p;
     pollAwaiting := pollAwaiting p;
     sigintAwaiting := sigintAwaiting p;
     exitCode := exitCode p |}.

(** The top-level block of lines 81-92, for a module executed directly.
    [runAuthServer] cannot reject here ([stop] does not throw), so the
    [.catch] of line 88 has nothing to handle. *)
Definition main (argv : list string) : process :=
  match parseAuthServerArgs argv with
  | Exited line code => exit code (emit [ConsoleError line] booted)
  | Returned credentialsPath =>
      if truthy credentialsPath then
        match credentialsPath with
        | Some path =>
            preceded_by [SetCredentialsPath path] (runAuthServer (Some path))
        | None => runAuthServer None
        end
      else runAuthServer None
  end.

(** The state in which [runAuthServer] leaves the process when it returns
    without exiting: poll and SIGINT handler installed, server [s] started. *)
Definition waiting_process (s : Server) : process :=
  {| authServer := Some s;
     effects := [InitializeOAuth2Client; NewAuthServer; Start true;
                 StderrWrite waiting_message; SetInterval 1000; OnSigint];
     pollInterval := true;
     sigintListener := true;
     pollAwaiting := 0;
     sigintAwaiting := 0;
     exitCode := None |}.

(** The flag as the poll would read it now. *)
Definition flag (p : process) : bool :=
  match authServer p with
  | Some s => authCompletedSuccessfully s
  | None => false
  end.

(** What holds of every state the driver goes through once the poll and the
    SIGINT handler are installed. *)
Record polling_invariant (p : process) : Prop := {
  inv_server : authServer p <> None;
  inv_listener : sigintListener p = true;
  inv_exit_zero : forall code, exitCode p = Some code -> code = 0%Z;
  inv_armed :
    pollInterval p = true ->
    exitCode p = None /\ pollAwaiting p = 0 /\ sigintAwaiting p = 0
    /\ stop_calls (effects p) = 0;
  inv_exit_after_stop :
    forall code, exitCode p = Some code ->
    happens_before is_stop is_exit (effects p) = true;
  inv_running : exitCode p = None -> position is_exit (effects p) = None;
  inv_awaited :
    0 < pollAwaiting p + sigintAwaiting p ->
    position is_stop (effects p) <> None
}.

(** After the poll saw the flag: its callback awaits [stop()] until the
    process exits. *)
Definition poll_pending (p : process) : Prop :=
  exitCode p = None -> 0 < pollAwaiting p.

(** After one interrupt and before any other: the poll is cleared, one
    handler awaits the one [stop()] that was called. *)
Record interrupted_once (p : process) : Prop := {
  once_cleared : pollInterval p = false;
  once_no_poll : pollAwaiting p = 0;
  once_handler : exitCode p = None -> sigintAwaiting p = 1;
  once_stop : stop_calls (effects p) = 1
}.

Definition is_sigint (e : event Activity) : bool :=
  match e with Sigint => true | _ => false end.

(** After the poll saw the flag and before any interrupt: the log stands at
    [log] while the callback awaits [stop()], and ends with the success
    message and the exit once it has resumed. *)
Record observed_once (log : list effect) (p : process) : Prop := {
  seen_cleared : pollInterval p = false;
  seen_no_handler : sigintAwaiting p = 0;
  seen_pending : exitCode p = None -> pollAwaiting p = 1 /\ effects p = log;
  seen_done :
    forall code, exitCode p = Some code ->
    effects p = log ++ [StderrWrite ("Authentication successful. Server stopped." ++ nl);
                        ProcessExit 0]
}.

(** [needle] occurs somewhere in [text]. *)
Definition mentions (needle text : string) : bool :=
  match String.index 0 needle text with
  | Some _ => true
  | None => false
  end.

End Driver.

(** ** The AuthServer state machine

    Modelled from the spec: the AuthServer class and its CallbackListener
    ([auth/server.js] is not part of the sources at hand).  The definitions
    below follow sections 3, 4.1, 4.2, 4.3 and 5 of the specification. *)

(** Modelled from the spec: the [status] values of an AuthSession (section 3). *)
Inductive Status : Type :=
| NotStarted
| TokenAlreadyValid
| Listening
| ExchangePending
| Completed
| Failed.

Definition Status_eqb (a b : Status) : bool :=
  match a, b with
  | NotStarted, NotStarted
  | TokenAlreadyValid, TokenAlreadyValid
  | Listening, Listening
  | ExchangePending, ExchangePending
  | Completed, Completed
  | Failed, Failed => true
  | _, _ => false
  end.

(** Modelled from the spec: the AuthSession record (section 3). *)
Record AuthSession : Type := {
  status : Status;
  boundPort : option Z;
  completedSuccessfully : bool;
  errorDetail : option string
}.

(** Modelled from the spec: what the session finds around it.  A
    [StorageError] of [hasValidCredential] counts as "no valid credential"
    (section 6), so the query is a boolean. *)
Record Surroundings : Type := {
  hasValidCredential : bool;       (* TokenStore.hasValidCredential() *)
  occupied : list Z                (* ports some other program holds *)
}.

(** Modelled from the spec: the PortCandidate sequence, 3000..3004 in
    ascending order (sections 3 and 8). *)
Definition portCandidates : list Z := [3000; 3001; 3002; 3003; 3004]%Z.

(** Modelled from the spec: the server object, i.e. its session together
    with a record of the calls it made to its collaborators. *)
Record AuthServerState : Type := {
  around : Surroundings;
  session : AuthSession;
  exchangeCalls : list string;     (* codes given to OAuthClient.exchangeCode *)
  binds : list Z;                  (* ports on which a listener was bound *)
  browserOpened : bool
}.

(** Modelled from the spec: how a token exchange started by a callback ends
    (section 4.3 and the TokenStore contract of section 6). *)
Inductive ExchangeOutcome : Type :=
| TokensPersisted                  (* exchange and persist both succeeded *)
| ExchangeError                    (* exchangeCode failed *)
| StorageError.                    (* persist failed *)

(** Modelled from the spec: what reaches the server between two calls of its
    public methods (sections 4.2 and 4.3). *)
Inductive Incoming : Type :=
| Callback (code error : option string)   (* GET /oauth2callback?code=..&error=.. *)
| UnrelatedPath (path : string)           (* favicon, health probes *)
| ExchangeFinished (outcome : ExchangeOutcome).

(** The server with its session replaced by [a]. *)
Definition set_session (a : AuthSession) (s : AuthServerState) : AuthServerState :=
  {| around := around s;
     session := a;
     exchangeCalls := exchangeCalls s;
     binds := binds s;
     browserOpened := browserOpened s |}.

(** Modelled from the spec: a server on which [start] was not yet called. *)
Definition fresh (w : Surroundings) : AuthServerState :=
  {| around := w;
     session := {| status := NotStarted; boundPort := None;
                   completedSuccessfully := false; errorDetail := None |};
     exchangeCalls := [];
     binds := [];
     browserOpened := false |}.

(** Modelled from the spec: binding tries each candidate in order and stops
    at the first port that is free (section 4.1, step 2). *)
Definition port_free (w : Surroundings) (port : Z) : bool :=
  negb (existsb (Z.eqb port) (occupied w)).

(** Modelled from the spec: the port the listener ends up on, if any. *)
Definition first_free_port (w : Surroundings) : option Z :=
  find (port_free w) portCandidates.

(** Modelled from the spec: [start(openBrowser)] of section 4.1.  A second
    call fails with [AlreadyStarted]; a valid stored credential short-cuts
    before any bind; otherwise the first free candidate is bound, or the
    session fails when none is free. *)
Definition server_start (openBrowser : bool) (s : AuthServerState)
  : AuthServerState * (thrown + bool) :=
  match status (session s) with
  | NotStarted =>
      if hasValidCredential (around s) then
        (set_session {| status := TokenAlreadyValid; boundPort := None;
                        completedSuccessfully := true; errorDetail := None |} s,
         inr true)
      else
        match first_free_port (around s) with
        | None =>
            (set_session {| status := Failed; boundPort := None;
                            completedSuccessfully := false;
                            errorDetail := Some "AllPortsExhausted" |} s,
             inr false)
        | Some port =>
            ({| around := around s;
                session := {| status := Listening; boundPort := Some port;
                              completedSuccessfully := false; errorDetail := None |};
                exchangeCalls := exchangeCalls s;
                binds := binds s ++ [port];
                browserOpened := openBrowser |},
             inr true)
        end
  | _ => (s, inl (ErrorObject "AlreadyStarted"))
  end.

(** Modelled from the spec: closing the listener releases the bound port and
    touches nothing else. *)
Definition close_listener (a : AuthSession) : AuthSession :=
  {| status := status a; boundPort := None;
     completedSuccessfully := completedSuccessfully a;
     errorDetail := errorDetail a |}.

(** Modelled from the spec: [stop()] of section 4.1: the listener is closed
    in every state, the flag keeps its value, no further state is entered. *)
Definition server_stop (s : AuthServerState) : AuthServerState :=
  set_session (close_listener (session s)) s.

(** Modelled from the spec: the session awaits its callback, that is, it is
    in state [Listening] and its listener is still open. *)
Definition listening (s : AuthServerState) : bool :=
  Status_eqb (status (session s)) Listening
  && match boundPort (session s) with Some _ => true | None => false end.

(** Modelled from the spec: a terminal error sets [Failed] with a detail
    message, leaves the flag false and closes the listener (sections 4.3
    and 7). *)
Definition fail_with (detail : string) (s : AuthServerState) : AuthServerState :=
  set_session {| status := Failed; boundPort := None;
                 completedSuccessfully := false; errorDetail := Some detail |} s.

(** Modelled from the spec: request handling of section 4.2 and the exchange
    of section 4.3.  Only a session that is listening accepts a callback; a
    provider error denies, a code starts the one exchange, neither is
    malformed.  The exchange result is taken only while the session is still
    pending with its listener open: after a [stop] that won the race of
    section 5 (c) the session is left unchanged. *)
Definition server_handle (i : Incoming) (s : AuthServerState) : AuthServerState :=
  match i with
  | UnrelatedPath _ => s
  | Callback code error =>
      if listening s then
        match error, code with
        | Some e, _ => fail_with ("ProviderDenied: " ++ e) s
        | None, Some c =>
            {| around := around s;
               session := {| status := ExchangePending;
                             boundPort := boundPort (session s);
                             completedSuccessfully := false;
                             errorDetail := None |};
               exchangeCalls := exchangeCalls s ++ [c];
               binds := binds s;
               browserOpened := browserOpened s |}
        | None, None => fail_with "MalformedCallback" s
        end
      else s
  | ExchangeFinished outcome =>
      match status (session s), boundPort (session s) with
      | ExchangePending, Some _ =>
          match outcome with
          | TokensPersisted =>
              set_session {| status := Completed; boundPort := None;
                             completedSuccessfully := true; errorDetail := None |} s
          | ExchangeError => fail_with "ExchangeError" s
          | StorageError => fail_with "StorageError" s
          end
      | _, _ => s
      end
  end.

(** Modelled from the spec: the server of one process as the driver sees it.
    The OAuth client is opaque to the state machine. *)
#[export] Instance specAuthServer (w : Surroundings)
  : AuthServerOps unit AuthServerState Incoming :=
  {| newAuthServer := fun _ => fresh w;
     start := server_start;
     stop := server_stop;
     authCompletedSuccessfully := fun s => completedSuccessfully (session s);
     serve := server_handle |}.

(** Three surroundings used as examples: a valid stored credential; no
    credential and every port free; no credential and every candidate port
    taken. *)
Definition credential_present : Surroundings :=
  {| hasValidCredential := true; occupied := [] |}.

Definition ports_free : Surroundings :=
  {| hasValidCredential := false; occupied := [] |}.

Definition ports_taken : Surroundings :=
  {| hasValidCredential := false; occupied := portCandidates |}.

(** Two behaviours of [initializeOAuth2Client] used as examples. *)
Definition client_ready : option string -> thrown + unit :=
  fun _ => inr tt.

Definition client_broken : option string -> thrown + unit :=
  fun _ => inl (ErrorObject "Error loading OAuth keys").

(** A server whose [start] throws, used as an example; its state is its
    flag. *)
Definition throwingAuthServer : AuthServerOps unit bool unit :=
  {| newAuthServer := fun _ => false;
     start := fun _ s => (s, inl (ErrorObject "listen EACCES"));
     stop := fun s => s;
     authCompletedSuccessfully := fun s => s;
     serve := fun _ s => s |}.

(** A browser callback with code ABC whose exchange succeeds, as the driver
    sees it. *)
Definition browser_completes : list (event Incoming) :=
  [ServerActivity (Callback (Some "ABC") None);
   ServerActivity (ExchangeFinished TokensPersisted)].

(** Anything that can happen to a server during its life, in any order. *)
Inductive operation : Type :=
| CallStart (openBrowser : bool)
| CallStop
| Receive (i : Incoming).

Definition apply_operation (o : operation) (s : AuthServerState) : AuthServerState :=
  match o with
  | CallStart openBrowser => fst (server_start openBrowser s)
  | CallStop => server_stop s
  | Receive i => server_handle i s
  end.

Definition history (os : list operation) (s : AuthServerState) : AuthServerState :=
  fold_left (fun s o => apply_operation o s) os s.

(** Invariants of the state machine, used in the proofs below. *)

(** No code was exchanged before the session left [Listening], and never
    more than one. *)
Definition exchange_invariant (s : AuthServerState) : Prop :=
  match status (session s) with
  | NotStarted | TokenAlreadyValid | Listening => exchangeCalls s = []
  | ExchangePending | Completed | Failed => List.length (exchangeCalls s) <= 1
  end.

(** The session has left [Listening] for good. *)
Definition past_listening (s : AuthServerState) : Prop :=
  match status (session s) with
  | ExchangePending | Completed | Failed => True
  | NotStarted | TokenAlreadyValid | Listening => False
  end.

(** The flag is true exactly in the two states that stand for success. *)
Definition flag_invariant (s : AuthServerState) : Prop :=
  match status (session s) with
  | Completed | TokenAlreadyValid => completedSuccessfully (session s) = true
  | NotStarted | Listening | ExchangePending | Failed =>
      completedSuccessfully (session s) = false
  end.

(** ** Vocabulary for further properties of the driver *)

(** The credentials path the top-level block puts in force for a parsed
    [credentialsPath]: the path itself when it is truthy, none otherwise. *)
Definition override (credentialsPath : option string) : option string :=
  if truthy credentialsPath then credentialsPath else None.

(** What the top-level block does before it calls [runAuthServer]. *)
Definition override_effects (credentialsPath : option string) : list effect :=
  match override credentialsPath with
  | Some path => [SetCredentialsPath path]
  | None => []
  end.

(** The only things the two handlers of [runAuthServer] ever do: clear the
    timer, call [stop()], write the closing message, exit with code 0. *)
Definition handler_effect (e : effect) : bool :=
  match e with
  | ClearInterval => true
  | Stop => true
  | StderrWrite chunk => chunk =? "Authentication successful. Server stopped." ++ nl
  | ProcessExit code => (code =? 0)%Z
  | _ => false
  end.

(** Number of interrupts among [events]. *)
Definition sigints {Activity : Type} (events : list (event Activity)) : nat :=
  List.length (filter is_sigint events).

(** 1 while the interval timer is armed, 0 afterwards. *)
Definition armed {Server : Type} (p : @process Server) : nat :=
  if pollInterval p then 1 else 0.


(** * Properties *)

(** ** The argument parser *)

Lemma skipn_nth_cons (l : list string) (i : nat) (d : string) :
  i < List.length l -> skipn i l = nth i l d :: skipn (S i) l.
Proof.
  revert i; induction l as [|x l IH]; intros [|i] Hlt; simpl in *; try lia.
  - reflexivity.
  - apply IH; lia.
Qed.

(** The index loop and the suffix recursion compute the same result. *)
Lemma parse_loop_rest (args : list string) (i : nat) (credentialsPath : option string) :
  parse_loop args i credentialsPath = parse_rest (skipn i args) credentialsPath.
Proof.
  funelim (parse_loop args i credentialsPath).
  - rewrite (skipn_nth_cons args i "") by assumption.
    cbn [parse_rest].
    destruct (nth i args "" =? "--credentials-file") eqn:Harg.
    + destruct (i + 1 <? List.length args)%nat eqn:Hnext; cbn [andb].
      * apply Nat.ltb_lt in Hnext.
        rewrite (skipn_nth_cons args (S i) "") by lia.
        replace (S i) with (i + 1) by lia.
        destruct (negb (startsWith (nth (i + 1) args "") "--")) eqn:Hval.
        -- rewrite H. replace (S (i + 1)) with (i + 2) by lia. reflexivity.
        -- reflexivity.
      * apply Nat.ltb_ge in Hnext.
        rewrite skipn_all2 by lia. reflexivity.
    + rewrite H0. replace (S i) with (i + 1) by lia. reflexivity.
  - rewrite skipn_all2 by lia. reflexivity.
Qed.

Lemma parseAuthServerArgs_rest (argv : list string) :
  parseAuthServerArgs argv = parse_rest (skipn 2 argv) None.
Proof.
  unfold parseAuthServerArgs. cbv zeta. rewrite parse_loop_rest. reflexivity.
Qed.

(** Induction on lists that may peel off one or two elements at a time, as
    the loop does. *)
Lemma list_ind_two (P : list string -> Prop) :
  P [] ->
  (forall a l, P l -> (forall v l', l = v :: l' -> P l') -> P (a :: l)) ->
  forall l, P l.
Proof.
  intros Hnil Hcons l.
  assert (H : P l /\ (forall v l', l = v :: l' -> P l')).
  { induction l as [|a l [IH1 IH2]].
    - split; [exact Hnil | discriminate].
    - split.
      + apply Hcons; assumption.
      + intros v l' E. injection E as _ <-. exact IH1. }
  apply H.
Qed.

Lemma option_starts_with_dashes : startsWith "--credentials-file" "--" = true.
Proof. reflexivity. Qed.

Lemma value_is_not_the_option (v : string) :
  startsWith v "--" = false -> v <> "--credentials-file".
Proof. intros H ->. discriminate H. Qed.

(** Arguments already read without an error can be forgotten: the loop goes
    on from the path they left. *)
Lemma parse_rest_app (pre rest : list string) :
  forall credentialsPath p,
    parse_rest pre credentialsPath = Returned p ->
    parse_rest (pre ++ rest) credentialsPath = parse_rest rest p.
Proof.
  induction pre as [|a l IH1 IH2] using list_ind_two; intros cp p Hpre.
  - cbn in Hpre. injection Hpre as <-. reflexivity.
  - cbn [parse_rest app] in *.
    destruct (a =? "--credentials-file").
    + destruct l as [|v l']; [discriminate|].
      cbn [app].
      destruct (negb (startsWith v "--")); [|discriminate].
      apply (IH2 v l' eq_refl). exact Hpre.
    + apply IH1. exact Hpre.
Qed.

(** Without the option the path is left as it was. *)
Lemma parse_rest_no_option (rest : list string) :
  forall credentialsPath,
    ~ In "--credentials-file" rest ->
    parse_rest rest credentialsPath = Returned credentialsPath.
Proof.
  induction rest as [|a l IH]; intros cp Hnot; [reflexivity|].
  cbn [parse_rest].
  destruct (String.eqb_spec a "--credentials-file") as [->|Hne].
  - exfalso. apply Hnot. left. reflexivity.
  - apply IH. intros Hin. apply Hnot. right. exact Hin.
Qed.

(** An occurrence of the option that lacks a value stops the parser, wherever
    it stands: no occurrence is ever skipped as the value of another one. *)
Lemma parse_rest_missing_value (rest : list string) :
  forall credentialsPath i,
    nth_error rest i = Some "--credentials-file" ->
    (nth_error rest (S i) = None \/
     exists next, nth_error rest (S i) = Some next /\ startsWith next "--" = true) ->
    parse_rest rest credentialsPath
    = Exited "Option --credentials-file requires a value" 1.
Proof.
  induction rest as [|a l IH1 IH2] using list_ind_two; intros cp i Hi Hnext.
  - destruct i; discriminate.
  - cbn [parse_rest].
    destruct (String.eqb_spec a "--credentials-file") as [->|Hne].
    + destruct l as [|v l']; [reflexivity|].
      destruct (startsWith v "--") eqn:Hv; cbn [negb]; [reflexivity|].
      destruct i as [|[|i]]; cbn [nth_error] in Hi, Hnext.
      * destruct Hnext as [Hnone | (next & Hsome & Hbad)]; [discriminate|].
        injection Hsome as <-. congruence.
      * injection Hi as ->. discriminate Hv.
      * apply (IH2 v l' eq_refl _ i); assumption.
    + destruct i as [|i]; cbn [nth_error] in Hi, Hnext.
      * injection Hi as ->. congruence.
      * apply (IH1 _ i); assumption.
Qed.

Lemma parse_rest_lacking (rest : list string) (credentialsPath : option string) :
  some_option_lacks_value rest ->
  parse_rest rest credentialsPath
  = Exited "Option --credentials-file requires a value" 1.
Proof.
  intros (i & Hi & Hnext). apply (parse_rest_missing_value rest _ i Hi Hnext).
Qed.

(** Conversely the loop runs to its end when every occurrence has a value. *)
Lemma parse_rest_complete (rest : list string) :
  forall credentialsPath,
    every_option_has_value rest ->
    exists p, parse_rest rest credentialsPath = Returned p.
Proof.
  induction rest as [|a l IH1 IH2] using list_ind_two; intros cp Hall.
  - exists cp. reflexivity.
  - cbn [parse_rest].
    destruct (String.eqb_spec a "--credentials-file") as [->|Hne].
    + destruct (Hall 0 eq_refl) as (v & Hv & Hok).
      destruct l as [|v' l']; [discriminate|].
      cbn in Hv. injection Hv as ->. rewrite Hok. cbn [negb].
      apply (IH2 v l' eq_refl).
      intros i Hi. apply (Hall (S (S i))). exact Hi.
    + apply IH1. intros i Hi. apply (Hall (S i)). exact Hi.
Qed.

(** A path that comes out of the loop was either put in or read as a value. *)
Lemma parse_rest_accepts_values (rest : list string) :
  forall credentialsPath p,
    parse_rest rest credentialsPath = Returned (Some p) ->
    credentialsPath = Some p \/ startsWith p "--" = false.
Proof.
  induction rest as [|a l IH1 IH2] using list_ind_two; intros cp p Hret.
  - cbn in Hret. injection Hret as ->. left. reflexivity.
  - cbn [parse_rest] in Hret.
    destruct (a =? "--credentials-file").
    + destruct l as [|v l']; [discriminate|].
      destruct (startsWith v "--") eqn:Hv; cbn [negb] in Hret; [discriminate|].
      destruct (IH2 v l' eq_refl _ _ Hret) as [E | H]; [|right; exact H].
      injection E as ->. right. exact Hv.
    + apply (IH1 _ _ Hret).
Qed.

(** An argument that is not the option and does not follow the option
    directly changes nothing. *)
Lemma parse_rest_ignores (pre : list string) :
  forall x post credentialsPath,
    x <> "--credentials-file" ->
    last pre "" <> "--credentials-file" ->
    parse_rest (pre ++ x :: post) credentialsPath
    = parse_rest (pre ++ post) credentialsPath.
Proof.
  induction pre as [|a l IH1 IH2] using list_ind_two; intros x post cp Hx Hlast.
  - cbn [app parse_rest].
    destruct (String.eqb_spec x "--credentials-file"); [contradiction|reflexivity].
  - cbn [app parse_rest].
    destruct (String.eqb_spec a "--credentials-file") as [->|Hne].
    + destruct l as [|v l']; [cbn in Hlast; contradiction|].
      cbn [app].
      destruct (negb (startsWith v "--")); [|reflexivity].
      apply (IH2 v l' eq_refl); [exact Hx|].
      destruct l' as [|w l'']; [cbn; discriminate|exact Hlast].
    + apply IH1; [exact Hx|].
      destruct l as [|v l']; [cbn; discriminate|exact Hlast].
Qed.

(** The value after the last occurrence of the option is the result. *)
Lemma parse_rest_last_wins (pre post : list string) (v : string) :
  forall credentialsPath p,
    parse_rest pre credentialsPath = Returned p ->
    startsWith v "--" = false ->
    ~ In "--credentials-file" post ->
    parse_rest (pre ++ "--credentials-file" :: v :: post) credentialsPath
    = Returned (Some v).
Proof.
  intros cp p Hpre Hv Hpost.
  rewrite (parse_rest_app pre _ cp p Hpre).
  cbn [parse_rest]. rewrite String.eqb_refl, Hv. cbn [negb].
  apply parse_rest_no_option. exact Hpost.
Qed.

(** ** Logs *)

#[local] Arguments stop_calls : simpl never.

Lemma stop_calls_app (l l' : list effect) :
  stop_calls (l ++ l') = stop_calls l + stop_calls l'.
Proof. unfold stop_calls. rewrite filter_app, length_app. reflexivity. Qed.

Lemma position_bound (q : effect -> bool) (l : list effect) (i : nat) :
  position q l = Some i -> i < List.length l.
Proof.
  revert i; induction l as [|e l IH]; intros i H; cbn in *; [discriminate|].
  destruct (q e).
  - injection H as <-. lia.
  - destruct (position q l) as [j|]; [|discriminate].
    injection H as <-. specialize (IH j eq_refl). lia.
Qed.

Lemma position_app_found (q : effect -> bool) (l l' : list effect) (i : nat) :
  position q l = Some i -> position q (l ++ l') = Some i.
Proof.
  revert i; induction l as [|e l IH]; intros i H; cbn in *; [discriminate|].
  destruct (q e); [exact H|].
  destruct (position q l) as [j|]; [|discriminate].
  rewrite (IH j eq_refl). exact H.
Qed.

Lemma position_app_missing (q : effect -> bool) (l l' : list effect) :
  position q l = None ->
  position q (l ++ l') = option_map (Nat.add (List.length l)) (position q l').
Proof.
  induction l as [|e l IH]; intros H; cbn in *.
  - destruct (position q l'); reflexivity.
  - destruct (q e); [discriminate|].
    destruct (position q l) as [j|]; [discriminate|].
    rewrite (IH eq_refl). destruct (position q l'); reflexivity.
Qed.

(** Something already in the log stays ahead of what is appended later. *)
Lemma happens_before_app (a b : effect -> bool) (l l' : list effect) :
  position a l <> None -> position b l = None ->
  happens_before a b (l ++ l') = true.
Proof.
  intros Ha Hb. unfold happens_before.
  destruct (position a l) as [i|] eqn:Hi; [|contradiction].
  rewrite (position_app_found a l l' i Hi).
  rewrite (position_app_missing b l l' Hb).
  destruct (position b l') as [j|]; cbn; [|reflexivity].
  apply Nat.ltb_lt. apply position_bound in Hi. lia.
Qed.

Lemma position_app_keeps (q : effect -> bool) (l l' : list effect) :
  position q l <> None -> position q (l ++ l') <> None.
Proof.
  destruct (position q l) as [i|] eqn:Hi; [|contradiction].
  intros _. rewrite (position_app_found q l l' i Hi). discriminate.
Qed.

Lemma position_stop_calls (l : list effect) :
  stop_calls l = 0 <-> position is_stop l = None.
Proof.
  unfold stop_calls. induction l as [|e l IH]; cbn; [tauto|].
  destruct (is_stop e); cbn.
  - split; discriminate.
  - rewrite IH. destruct (position is_stop l); cbn; split; congruence.
Qed.

(** ** The running driver *)

Section DriverFacts.

Context {Client Server Activity : Type}.
Context {ops : AuthServerOps Client Server Activity}.
Variable initializeOAuth2Client : option string -> thrown + Client.

Lemma step_exited (e : event Activity) (p : process) (code : Z) :
  exitCode p = Some code -> step e p = p.
Proof. intros H. unfold step. rewrite H. reflexivity. Qed.

Lemma run_exited (events : list (event Activity)) (p : process) (code : Z) :
  exitCode p = Some code -> run events p = p.
Proof.
  induction events as [|e events IH]; intros H; [reflexivity|].
  cbn [run fold_left]. rewrite (step_exited e p code H). apply IH. exact H.
Qed.

Lemma run_app (events events' : list (event Activity)) (p : process) :
  run (events ++ events') p = run events' (run events p).
Proof. unfold run. apply fold_left_app. Qed.

Lemma run_cons (e : event Activity) (events : list (event Activity)) (p : process) :
  run (e :: events) p = run events (step e p).
Proof. reflexivity. Qed.

(** A property kept by every step is kept by every run. *)
Lemma run_preserves (I : process -> Prop) :
  (forall e p, I p -> I (step e p)) ->
  forall events p, I p -> I (run events p).
Proof.
  intros Hstep events. induction events as [|e events IH]; intros p Hp.
  - exact Hp.
  - rewrite run_cons. apply IH. apply Hstep. exact Hp.
Qed.

Lemma step_polling_invariant (e : event Activity) (p : process) :
  polling_invariant p -> polling_invariant (step e p).
Proof.
  intros Hinv. unfold step.
  destruct (exitCode p) as [code|] eqn:Hexit; [exact Hinv|].
  destruct Hinv as [Hsrv Hlis Hzero Harmed Hafter Hrun Hawait].
  destruct p as [srv eff poll lis pa sa ec]; cbn in *. subst ec lis.
  destruct srv as [s|]; [clear Hsrv|contradiction].
  specialize (Hrun eq_refl).
  destruct e as [| |k|a].
  - (* the timer fires *)
    destruct poll.
    2:{ constructor; cbn; auto; discriminate. }
    unfold poll_callback. cbn.
    destruct (authCompletedSuccessfully s).
    2:{ constructor; cbn; auto; discriminate. }
    destruct (Harmed eq_refl) as (_ & Hpa & Hsa & Hcalls).
    constructor; cbn; try discriminate; auto.
    + intros _. rewrite <- app_assoc.
      rewrite position_app_missing by exact Hrun. reflexivity.
    + intros _. rewrite <- app_assoc.
      apply position_stop_calls in Hcalls.
      rewrite position_app_missing by exact Hcalls. discriminate.
  - (* SIGINT *)
    unfold sigint_handler. cbn.
    constructor; cbn; try discriminate; auto.
    + intros _. rewrite <- app_assoc.
      rewrite position_app_missing by exact Hrun. reflexivity.
    + intros _. rewrite <- app_assoc.
      destruct (position is_stop eff) as [i|] eqn:Hpos.
      * rewrite (position_app_found _ _ _ i Hpos). discriminate.
      * rewrite position_app_missing by exact Hpos. discriminate.
  - (* an awaited stop() resolves *)
    destruct k; cbn.
    + destruct pa as [|n]; [constructor; cbn; auto; discriminate|].
      assert (Hpos : position is_stop eff <> None) by (apply Hawait; lia).
      assert (Hdisarmed : poll = false).
      { destruct poll; [|reflexivity].
        destruct (Harmed eq_refl) as (_ & Hpa & _). discriminate. }
      subst poll.
      constructor; cbn; try discriminate; auto.
      * intros code' E. injection E as <-. reflexivity.
      * intros code' _. rewrite <- app_assoc. apply happens_before_app; assumption.
      * intros _. rewrite <- app_assoc. apply position_app_keeps. exact Hpos.
    + destruct sa as [|n]; [constructor; cbn; auto; discriminate|].
      assert (Hpos : position is_stop eff <> None) by (apply Hawait; lia).
      assert (Hdisarmed : poll = false).
      { destruct poll; [|reflexivity].
        destruct (Harmed eq_refl) as (_ & _ & Hsa & _). discriminate. }
      subst poll.
      constructor; cbn; try discriminate; auto.
      * intros code' E. injection E as <-. reflexivity.
      * intros code' _. apply happens_before_app; assumption.
      * intros _. apply position_app_keeps. exact Hpos.
  - (* the server works on its own *)
    constructor; cbn; auto; discriminate.
Qed.

Lemma step_disarmed (e : event Activity) (p : process) :
  pollInterval p = false -> pollInterval (step e p) = false.
Proof.
  intros H. unfold step.
  destruct (exitCode p); [exact H|].
  destruct e as [| |k|a].
  - rewrite H. exact H.
  - destruct (sigintListener p); [|exact H].
    unfold sigint_handler. cbn. destruct (authServer p); reflexivity.
  - destruct (awaiting k p); [exact H|]. destruct k; exact H.
  - destruct (authServer p); exact H.
Qed.

Lemma step_poll_pending (e : event Activity) (p : process) :
  poll_pending p -> poll_pending (step e p).
Proof.
  unfold poll_pending, step. intros H.
  destruct (exitCode p) eqn:Hexit; [rewrite Hexit; discriminate|].
  specialize (H eq_refl).
  destruct e as [| |k|a].
  - destruct (pollInterval p); [|rewrite Hexit; auto].
    unfold poll_callback.
    destruct (authServer p); [|rewrite Hexit; auto].
    destruct (authCompletedSuccessfully s); [cbn; lia|rewrite Hexit; auto].
  - destruct (sigintListener p); [|rewrite Hexit; auto].
    unfold sigint_handler. cbn.
    destruct (authServer p); cbn; [auto|discriminate].
  - destruct (awaiting k p); [rewrite Hexit; auto|].
    destruct k; cbn; discriminate.
  - destruct (authServer p); cbn; auto.
Qed.

Lemma step_interrupted_once (e : event Activity) (p : process) :
  is_sigint e = false -> interrupted_once p -> interrupted_once (step e p).
Proof.
  intros He Hp. unfold step.
  destruct (exitCode p) eqn:Hexit; [exact Hp|].
  destruct Hp as [Hcl Hnp Hh Hst]. specialize (Hh Hexit).
  destruct e as [| |k|a]; [|discriminate He| |].
  - rewrite Hcl. constructor; auto.
  - destruct k; cbn.
    + rewrite Hnp. constructor; auto.
    + rewrite Hh. constructor; cbn; auto; try discriminate.
      rewrite stop_calls_app, Hst. reflexivity.
  - destruct (authServer p); constructor; cbn; auto.
Qed.

Lemma run_interrupted_once (events : list (event Activity)) :
  forall p,
    forallb (fun e => negb (is_sigint e)) events = true ->
    interrupted_once p -> interrupted_once (run events p).
Proof.
  induction events as [|e events IH]; intros p Hno Hp; [exact Hp|].
  cbn [forallb] in Hno. apply andb_true_iff in Hno as [He Hno].
  rewrite run_cons. apply IH; [exact Hno|].
  apply step_interrupted_once; [|exact Hp].
  destruct (is_sigint e); [discriminate He|reflexivity].
Qed.

Lemma step_observed_once (log : list effect) (e : event Activity) (p : process) :
  is_sigint e = false -> observed_once log p -> observed_once log (step e p).
Proof.
  intros He Hp. unfold step.
  destruct (exitCode p) eqn:Hexit; [exact Hp|].
  destruct Hp as [Hcl Hnh Hpend Hdone]. destruct (Hpend Hexit) as [Hpa Hlog].
  destruct e as [| |k|a]; [|discriminate He| |].
  - rewrite Hcl. constructor; auto.
  - destruct k; cbn.
    + rewrite Hpa. constructor; cbn; auto; try discriminate.
      intros code _. rewrite Hlog, <- app_assoc. reflexivity.
    + rewrite Hnh. constructor; auto.
  - destruct (authServer p); constructor; cbn; auto.
Qed.

Lemma run_observed_once (log : list effect) (events : list (event Activity)) :
  forall p,
    forallb (fun e => negb (is_sigint e)) events = true ->
    observed_once log p -> observed_once log (run events p).
Proof.
  induction events as [|e events IH]; intros p Hno Hp; [exact Hp|].
  cbn [forallb] in Hno. apply andb_true_iff in Hno as [He Hno].
  rewrite run_cons. apply IH; [exact Hno|].
  apply step_observed_once; [|exact Hp].
  destruct (is_sigint e); [discriminate He|reflexivity].
Qed.

(** *** Start-up *)

Lemma startup_waiting (path : option string) (c : Client) (s : Server) :
  initializeOAuth2Client path = inr c ->
  start true (newAuthServer c) = (s, inr true) ->
  authCompletedSuccessfully s = false ->
  runAuthServer initializeOAuth2Client path = waiting_process s.
Proof.
  intros Hinit Hstart Hflag. unfold runAuthServer.
  rewrite Hinit, Hstart, Hflag. reflexivity.
Qed.

Lemma waiting_process_invariant (s : Server) : polling_invariant (waiting_process s).
Proof. constructor; cbn; auto; intros; (discriminate || lia). Qed.

(** Start-up ends in exactly one of two ways: the process has exited, or the
    poll is armed. *)
Lemma startup_outcome (path : option string) :
  (exists code, exitCode (runAuthServer initializeOAuth2Client path) = Some code
                /\ pollInterval (runAuthServer initializeOAuth2Client path) = false)
  \/ (exists s, runAuthServer initializeOAuth2Client path = waiting_process s).
Proof.
  unfold runAuthServer.
  destruct (initializeOAuth2Client path) as [error|c].
  - left. exists 1%Z. split; reflexivity.
  - destruct (start true (newAuthServer c)) as [s [error|success]].
    + left. exists 1%Z. split; reflexivity.
    + destruct success, (authCompletedSuccessfully s); cbn.
      * left. exists 0%Z. split; reflexivity.
      * right. exists s. reflexivity.
      * left. exists 0%Z. split; reflexivity.
      * left. exists 1%Z. split; reflexivity.
Qed.

(** Whenever the poll is armed the invariant of the polling phase holds. *)
Lemma armed_invariant (path : option string) (before : list (event Activity)) :
  pollInterval (run before (runAuthServer initializeOAuth2Client path)) = true ->
  polling_invariant (run before (runAuthServer initializeOAuth2Client path)).
Proof.
  intros Harmed.
  destruct (startup_outcome path) as [(code & Hexit & Hpoll) | (s & Hs)].
  - rewrite (run_exited before _ code Hexit) in Harmed. congruence.
  - rewrite Hs. apply (run_preserves polling_invariant).
    + intros e p. apply step_polling_invariant.
    + apply waiting_process_invariant.
Qed.

(** *** The handlers *)

Lemma tick_sees_flag (p : process) :
  polling_invariant p -> pollInterval p = true -> flag p = true ->
  effects (step TimerTick p) = effects p ++ [ClearInterval; Stop]
  /\ pollInterval (step TimerTick p) = false
  /\ exitCode (step TimerTick p) = None
  /\ pollAwaiting (step TimerTick p) = 1
  /\ sigintAwaiting (step TimerTick p) = 0.
Proof.
  intros Hinv Harmed Hflag.
  destruct (inv_armed p Hinv Harmed) as (Hexit & Hpa & Hsa & _).
  unfold step, poll_callback, flag in *. rewrite Hexit, Harmed.
  destruct (authServer p) as [s|]; [|discriminate].
  rewrite Hflag. cbn. rewrite <- app_assoc, Hpa, Hsa. auto.
Qed.

Lemma tick_sees_nothing (p : process) :
  flag p = false -> step TimerTick p = p.
Proof.
  intros Hflag. unfold step, poll_callback, flag in *.
  destruct (exitCode p); [reflexivity|].
  destruct (pollInterval p); [|reflexivity].
  destruct (authServer p) as [s|]; [|reflexivity].
  rewrite Hflag. reflexivity.
Qed.

Lemma sigint_while_armed (p : process) :
  polling_invariant p -> pollInterval p = true ->
  effects (step Sigint p) = effects p ++ [ClearInterval; Stop]
  /\ exitCode (step Sigint p) = None
  /\ interrupted_once (step Sigint p).
Proof.
  intros Hinv Harmed.
  destruct (inv_armed p Hinv Harmed) as (Hexit & Hpa & Hsa & Hcalls).
  pose proof (inv_listener p Hinv) as Hlis.
  pose proof (inv_server p Hinv) as Hsrv.
  unfold step, sigint_handler. rewrite Hexit, Hlis. cbn.
  destruct (authServer p) as [s|]; [|contradiction].
  cbn. rewrite <- app_assoc. repeat split; cbn; auto.
  rewrite !stop_calls_app, Hcalls. reflexivity.
Qed.

Lemma settle_poll (p : process) :
  polling_invariant p -> poll_pending p ->
  exitCode (step (StopSettled PollCallback) p) = Some 0%Z.
Proof.
  intros Hinv Hpend. unfold step.
  destruct (exitCode p) as [code|] eqn:Hexit.
  - rewrite Hexit, (inv_exit_zero p Hinv code Hexit). reflexivity.
  - specialize (Hpend Hexit). cbn.
    destruct (pollAwaiting p); [lia|reflexivity].
Qed.

Lemma settle_sigint (p : process) :
  polling_invariant p -> interrupted_once p ->
  exitCode (step (StopSettled SigintHandler) p) = Some 0%Z
  /\ stop_calls (effects (step (StopSettled SigintHandler) p)) = 1.
Proof.
  intros Hinv Honce. unfold step.
  destruct (exitCode p) as [code|] eqn:Hexit.
  - rewrite Hexit, (inv_exit_zero p Hinv code Hexit).
    split; [reflexivity|apply (once_stop p Honce)].
  - cbn. rewrite (once_handler p Honce Hexit). cbn.
    rewrite stop_calls_app, (once_stop p Honce). split; reflexivity.
Qed.

(** *** Exit codes *)

(** C1.  Whatever [runAuthServer] does, the process exits with code 0 when
    the flag [authCompletedSuccessfully] is true right after [start] (whatever
    [start] returned) or when a tick of the armed poll reads it true and the
    [stop()] that tick awaits has resolved; and it exits with code 1 when
    [start] returns false with the flag false, when [initializeOAuth2Client]
    throws, and when [start] throws.  Events that arrive afterwards change
    nothing. *)
Theorem runAuthServer_exit_codes (path : option string) :
  (forall c s success events,
      initializeOAuth2Client path = inr c ->
      start true (newAuthServer c) = (s, inr success) ->
      authCompletedSuccessfully s = true ->
      exitCode (run events (runAuthServer initializeOAuth2Client path)) = Some 0%Z)
  /\ (forall before after,
      pollInterval (run before (runAuthServer initializeOAuth2Client path)) = true ->
      flag (run before (runAuthServer initializeOAuth2Client path)) = true ->
      exitCode (run (before ++ TimerTick :: after ++ [StopSettled PollCallback])
                    (runAuthServer initializeOAuth2Client path)) = Some 0%Z)
  /\ (forall c s events,
      initializeOAuth2Client path = inr c ->
      start true (newAuthServer c) = (s, inr false) ->
      authCompletedSuccessfully s = false ->
      exitCode (run events (runAuthServer initializeOAuth2Client path)) = Some 1%Z)
  /\ (forall error events,
      initializeOAuth2Client path = inl error ->
      exitCode (run events (runAuthServer initializeOAuth2Client path)) = Some 1%Z)
  /\ (forall c s error events,
      initializeOAuth2Client path = inr c ->
      start true (newAuthServer c) = (s, inl error) ->
      exitCode (run events (runAuthServer initializeOAuth2Client path)) = Some 1%Z).
Proof.
  repeat split.
  - intros c s success events Hinit Hstart Hflag.
    assert (H : exitCode (runAuthServer initializeOAuth2Client path) = Some 0%Z).
    { unfold runAuthServer. rewrite Hinit, Hstart, Hflag.
      rewrite andb_false_r. reflexivity. }
    rewrite (run_exited events _ _ H). exact H.
  - intros before after Harmed Hflag.
    rewrite run_app, run_cons, run_app.
    pose proof (armed_invariant path before Harmed) as Hinv.
    destruct (tick_sees_flag _ Hinv Harmed Hflag) as (_ & _ & _ & Hpa & _).
    set (p2 := step TimerTick (run before (runAuthServer initializeOAuth2Client path))) in *.
    cbn [run fold_left]. apply settle_poll.
    + apply (run_preserves polling_invariant).
      * intros e p. apply step_polling_invariant.
      * apply step_polling_invariant. exact Hinv.
    + apply (run_preserves poll_pending).
      * intros e p. apply step_poll_pending.
      * intros _. rewrite Hpa. lia.
  - intros c s events Hinit Hstart Hflag.
    assert (H : exitCode (runAuthServer initializeOAuth2Client path) = Some 1%Z).
    { unfold runAuthServer. rewrite Hinit, Hstart, Hflag. reflexivity. }
    rewrite (run_exited events _ _ H). exact H.
  - intros error events Hinit.
    assert (H : exitCode (runAuthServer initializeOAuth2Client path) = Some 1%Z).
    { unfold runAuthServer. rewrite Hinit. reflexivity. }
    rewrite (run_exited events _ _ H). exact H.
  - intros c s error events Hinit Hstart.
    assert (H : exitCode (runAuthServer initializeOAuth2Client path) = Some 1%Z).
    { unfold runAuthServer. rewrite Hinit, Hstart. reflexivity. }
    rewrite (run_exited events _ _ H). exact H.
Qed.

(** *** Interrupt *)

(** C2.  When SIGINT arrives while the driver waits for the browser callback
    (the poll is armed), the handler clears the poll, which never fires
    again, and calls [authServer.stop()]; with no second interrupt before the
    end, the process exits with code 0 once that [stop()] has resolved, and
    [stop()] was called exactly once in the whole run. *)
Theorem sigint_stops_once_and_exits
    (path : option string) (before mid : list (event Activity)) :
  pollInterval (run before (runAuthServer initializeOAuth2Client path)) = true ->
  forallb (fun e => negb (is_sigint e)) mid = true ->
  effects (step Sigint (run before (runAuthServer initializeOAuth2Client path)))
  = effects (run before (runAuthServer initializeOAuth2Client path))
    ++ [ClearInterval; Stop]
  /\ (forall events,
        pollInterval
          (run events (step Sigint (run before (runAuthServer initializeOAuth2Client path))))
        = false)
  /\ exitCode (run (before ++ Sigint :: mid ++ [StopSettled SigintHandler])
                   (runAuthServer initializeOAuth2Client path)) = Some 0%Z
  /\ stop_calls
       (effects (run (before ++ Sigint :: mid ++ [StopSettled SigintHandler])
                     (runAuthServer initializeOAuth2Client path))) = 1.
Proof.
  intros Harmed Hmid.
  pose proof (armed_invariant path before Harmed) as Hinv.
  destruct (sigint_while_armed _ Hinv Harmed) as (Hlog & Hexit & Honce).
  split; [exact Hlog|]. split.
  - intros events. apply (run_preserves (fun p => pollInterval p = false)).
    + intros e p. apply step_disarmed.
    + apply (once_cleared _ Honce).
  - rewrite run_app, run_cons, run_app. cbn [run fold_left].
    apply settle_sigint.
    + apply (run_preserves polling_invariant).
      * intros e p. apply step_polling_invariant.
      * apply step_polling_invariant. exact Hinv.
    + apply run_interrupted_once; assumption.
Qed.

(** *** Poll *)

(** C3.  After a [start] that returned true with the flag still false, the
    driver has installed an interval timer of 1000 ms.  A tick that reads the
    flag false does nothing.  A tick that reads it true clears the timer and
    calls [authServer.stop()]; when that [stop()] has resolved the process
    has exited with code 0, with the call of [stop()] before the exit in the
    log, and if no interrupt came in between the log ends with: clear the
    timer, stop, the success message, exit 0.  In no run of the polling
    phase does the process exit with another code or without a [stop()]
    before the exit. *)
Theorem poll_observes_stops_then_exits
    (path : option string) (c : Client) (s : Server) :
  initializeOAuth2Client path = inr c ->
  start true (newAuthServer c) = (s, inr true) ->
  authCompletedSuccessfully s = false ->
  effects (runAuthServer initializeOAuth2Client path)
  = [InitializeOAuth2Client; NewAuthServer; Start true;
     StderrWrite waiting_message; SetInterval 1000; OnSigint]
  /\ pollInterval (runAuthServer initializeOAuth2Client path) = true
  /\ (forall before,
        pollInterval (run before (runAuthServer initializeOAuth2Client path)) = true ->
        flag (run before (runAuthServer initializeOAuth2Client path)) = false ->
        step TimerTick (run before (runAuthServer initializeOAuth2Client path))
        = run before (runAuthServer initializeOAuth2Client path))
  /\ (forall before after,
        pollInterval (run before (runAuthServer initializeOAuth2Client path)) = true ->
        flag (run before (runAuthServer initializeOAuth2Client path)) = true ->
        effects (run (before ++ [TimerTick]) (runAuthServer initializeOAuth2Client path))
        = effects (run before (runAuthServer initializeOAuth2Client path))
          ++ [ClearInterval; Stop]
        /\ pollInterval
             (run (before ++ TimerTick :: after) (runAuthServer initializeOAuth2Client path))
           = false
        /\ exitCode
             (run (before ++ TimerTick :: after ++ [StopSettled PollCallback])
                  (runAuthServer initializeOAuth2Client path)) = Some 0%Z
        /\ happens_before is_stop is_exit
             (effects (run (before ++ TimerTick :: after ++ [StopSettled PollCallback])
                           (runAuthServer initializeOAuth2Client path))) = true
        /\ (forallb (fun e => negb (is_sigint e)) after = true ->
            effects (run (before ++ TimerTick :: after ++ [StopSettled PollCallback])
                         (runAuthServer initializeOAuth2Client path))
            = effects (run before (runAuthServer initializeOAuth2Client path))
              ++ [ClearInterval; Stop;
                  StderrWrite ("Authentication successful. Server stopped." ++ nl);
                  ProcessExit 0]))
  /\ (forall events code,
        exitCode (run events (runAuthServer initializeOAuth2Client path)) = Some code ->
        code = 0%Z
        /\ happens_before is_stop is_exit
             (effects (run events (runAuthServer initializeOAuth2Client path))) = true).
Proof.
  intros Hinit Hstart Hflag0.
  rewrite (startup_waiting path c s Hinit Hstart Hflag0).
  assert (Hall : forall events, polling_invariant (run events (waiting_process s))).
  { intros events. apply (run_preserves polling_invariant).
    - intros e p. apply step_polling_invariant.
    - apply waiting_process_invariant. }
  split; [reflexivity|]. split; [reflexivity|]. split; [|split].
  - intros before _ Hflag. apply tick_sees_nothing. exact Hflag.
  - intros before after Harmed Hflag.
    destruct (tick_sees_flag _ (Hall before) Harmed Hflag)
      as (Hlog & Hcleared & Hexit & Hpa & Hsa).
    assert (Hzero : exitCode (run (before ++ TimerTick :: after ++ [StopSettled PollCallback])
                                  (waiting_process s)) = Some 0%Z).
    { rewrite run_app, run_cons, run_app. cbn [run fold_left].
      apply settle_poll.
      - rewrite <- run_cons, <- run_app. apply Hall.
      - apply (run_preserves poll_pending).
        + intros e p. apply step_poll_pending.
        + intros _. rewrite Hpa. lia. }
    split; [|split; [|split; [|split]]].
    + rewrite run_app. exact Hlog.
    + rewrite run_app, run_cons.
      apply (run_preserves (fun p => pollInterval p = false)).
      * intros e p. apply step_disarmed.
      * exact Hcleared.
    + exact Hzero.
    + apply (inv_exit_after_stop _ (Hall _) 0%Z). exact Hzero.
    + intros Hafter.
      assert (Hseen : observed_once
                        (effects (run before (waiting_process s)) ++ [ClearInterval; Stop])
                        (run (after ++ [StopSettled PollCallback])
                             (step TimerTick (run before (waiting_process s))))).
      { apply run_observed_once.
        - rewrite forallb_app, Hafter. reflexivity.
        - constructor; auto. intros code Hc. congruence. }
      rewrite run_app, run_cons.
      rewrite run_app, run_cons in Hzero.
      rewrite (seen_done _ _ Hseen 0%Z Hzero), <- app_assoc. reflexivity.
  - intros events code Hexit. split.
    + apply (inv_exit_zero _ (Hall events) code Hexit).
    + apply (inv_exit_after_stop _ (Hall events) code Hexit).
Qed.

(** *** Failure to start *)

(** C4.  When [start] resolves to false and the flag is false, the driver
    writes one failure message to stderr, which names the port range
    3000-3004, and exits with code 1 without installing the poll. *)
Theorem start_failure_names_port_range
    (path : option string) (c : Client) (s : Server) :
  initializeOAuth2Client path = inr c ->
  start true (newAuthServer c) = (s, inr false) ->
  authCompletedSuccessfully s = false ->
  effects (runAuthServer initializeOAuth2Client path)
  = [InitializeOAuth2Client; NewAuthServer; Start true;
     StderrWrite failure_message; ProcessExit 1]
  /\ mentions "3000-3004" failure_message = true
  /\ exitCode (runAuthServer initializeOAuth2Client path) = Some 1%Z
  /\ pollInterval (runAuthServer initializeOAuth2Client path) = false
  /\ forall events,
       run events (runAuthServer initializeOAuth2Client path)
       = runAuthServer initializeOAuth2Client path.
Proof.
  intros Hinit Hstart Hflag.
  assert (Hexit : exitCode (runAuthServer initializeOAuth2Client path) = Some 1%Z).
  { unfold runAuthServer. rewrite Hinit, Hstart, Hflag. reflexivity. }
  repeat split.
  - unfold runAuthServer. rewrite Hinit, Hstart, Hflag. reflexivity.
  - exact Hexit.
  - unfold runAuthServer. rewrite Hinit, Hstart, Hflag. reflexivity.
  - intros events. apply (run_exited events _ _ Hexit).
Qed.

(** *** The top-level block *)

Lemma runAuthServer_begins (path : option string) :
  exists rest,
    effects (runAuthServer initializeOAuth2Client path) = InitializeOAuth2Client :: rest.
Proof.
  unfold runAuthServer.
  destruct (initializeOAuth2Client path) as [error|c].
  - eexists. reflexivity.
  - destruct (start true (newAuthServer c)) as [s [error|success]].
    + eexists. reflexivity.
    + destruct (negb success && negb (authCompletedSuccessfully s));
        [|destruct (authCompletedSuccessfully s)]; eexists; reflexivity.
Qed.

Lemma main_with_path (argv : list string) (path : string) :
  parseAuthServerArgs argv = Returned (Some path) ->
  path <> "" ->
  main initializeOAuth2Client argv
  = preceded_by [SetCredentialsPath path]
      (runAuthServer initializeOAuth2Client (Some path)).
Proof.
  intros Hparse Hne. unfold main. rewrite Hparse. cbn [truthy].
  destruct (String.eqb_spec path ""); [contradiction|reflexivity].
Qed.

Lemma main_without_path (argv : list string) (credentialsPath : option string) :
  parseAuthServerArgs argv = Returned credentialsPath ->
  credentialsPath = None \/ credentialsPath = Some "" ->
  main initializeOAuth2Client argv = runAuthServer initializeOAuth2Client None.
Proof.
  intros Hparse [-> | ->]; unfold main; rewrite Hparse; reflexivity.
Qed.

Lemma parseAuthServerArgs_args (node script : string) (args : list string) :
  parseAuthServerArgs (node :: script :: args) = parse_rest args None.
Proof. apply parseAuthServerArgs_rest. Qed.

(** C9.  If some [--credentials-file] on the command line is the last
    argument or is followed by an argument starting with [--], the parser
    prints "Option --credentials-file requires a value" with [console.error]
    and exits with code 1, and that is all the program does: no OAuth client,
    no server.  And a path the parser returns never starts with [--]. *)
Theorem missing_value_exits_before_auth (node script : string) (args : list string) :
  (some_option_lacks_value args ->
   parseAuthServerArgs (node :: script :: args)
   = Exited "Option --credentials-file requires a value" 1
   /\ effects (main initializeOAuth2Client (node :: script :: args))
      = [ConsoleError "Option --credentials-file requires a value"; ProcessExit 1]
   /\ exitCode (main initializeOAuth2Client (node :: script :: args)) = Some 1%Z
   /\ authServer (main initializeOAuth2Client (node :: script :: args)) = None)
  /\ (forall path,
        parseAuthServerArgs (node :: script :: args) = Returned (Some path) ->
        startsWith path "--" = false).
Proof.
  split.
  - intros Hlack.
    assert (Hparse : parseAuthServerArgs (node :: script :: args)
                     = Exited "Option --credentials-file requires a value" 1).
    { rewrite parseAuthServerArgs_args. apply parse_rest_lacking. exact Hlack. }
    split; [exact Hparse|].
    unfold main. rewrite Hparse. repeat split.
  - intros path Hparse. rewrite parseAuthServerArgs_args in Hparse.
    destruct (parse_rest_accepts_values args None path Hparse) as [H | H];
      [discriminate|exact H].
Qed.

(** C6, amended.  When the command line holds [--credentials-file] followed
    by a non-empty value that does not start with [--], no later
    [--credentials-file], and every earlier [--credentials-file] has a value
    too, the parser returns that value and the program calls
    [setCredentialsPath] with it first, then [initializeOAuth2Client], which
    runs with that path in force; the server is constructed after that. *)
Theorem credentials_file_overrides_path
    (node script : string) (pre post : list string) (value : string) :
  every_option_has_value pre ->
  startsWith value "--" = false ->
  value <> "" ->
  ~ In "--credentials-file" post ->
  parseAuthServerArgs (node :: script :: pre ++ "--credentials-file" :: value :: post)
  = Returned (Some value)
  /\ main initializeOAuth2Client
          (node :: script :: pre ++ "--credentials-file" :: value :: post)
     = preceded_by [SetCredentialsPath value]
         (runAuthServer initializeOAuth2Client (Some value))
  /\ exists rest,
       effects (main initializeOAuth2Client
                     (node :: script :: pre ++ "--credentials-file" :: value :: post))
       = SetCredentialsPath value :: InitializeOAuth2Client :: rest.
Proof.
  intros Hpre Hvalue Hne Hpost.
  destruct (parse_rest_complete pre None Hpre) as (p & Hp).
  assert (Hparse : parseAuthServerArgs
                     (node :: script :: pre ++ "--credentials-file" :: value :: post)
                   = Returned (Some value)).
  { rewrite parseAuthServerArgs_args.
    apply (parse_rest_last_wins pre post value None p Hp Hvalue Hpost). }
  split; [exact Hparse|].
  rewrite (main_with_path _ value Hparse Hne). split; [reflexivity|].
  destruct (runAuthServer_begins (Some value)) as (rest & Hrest).
  exists rest. cbn. rewrite Hrest. reflexivity.
Qed.

(** C10, amended.  The parser ignores every argument that is neither
    [--credentials-file] nor the argument right after one: removing such an
    argument does not change the result, and a command line without the
    option yields no path.  When the option occurs several times, each time
    with a value, the value after the last occurrence is returned; the
    program uses it as the credentials path override when it is not the
    empty string, and runs without an override when it is. *)
Theorem last_credentials_file_wins (node script : string) :
  (forall pre x post,
      x <> "--credentials-file" ->
      last pre "" <> "--credentials-file" ->
      parseAuthServerArgs (node :: script :: pre ++ x :: post)
      = parseAuthServerArgs (node :: script :: pre ++ post))
  /\ (forall args,
        ~ In "--credentials-file" args ->
        parseAuthServerArgs (node :: script :: args) = Returned None)
  /\ (forall pre value post,
        every_option_has_value pre ->
        startsWith value "--" = false ->
        ~ In "--credentials-file" post ->
        parseAuthServerArgs
          (node :: script :: pre ++ "--credentials-file" :: value :: post)
        = Returned (Some value)
        /\ (value <> "" ->
            main initializeOAuth2Client
                 (node :: script :: pre ++ "--credentials-file" :: value :: post)
            = preceded_by [SetCredentialsPath value]
                (runAuthServer initializeOAuth2Client (Some value)))
        /\ (value = "" ->
            main initializeOAuth2Client
                 (node :: script :: pre ++ "--credentials-file" :: value :: post)
            = runAuthServer initializeOAuth2Client None)).
Proof.
  split; [|split].
  - intros pre x post Hx Hlast. rewrite !parseAuthServerArgs_args.
    apply parse_rest_ignores; assumption.
  - intros args Hnone. rewrite parseAuthServerArgs_args.
    apply parse_rest_no_option. exact Hnone.
  - intros pre value post Hpre Hvalue Hpost.
    destruct (parse_rest_complete pre None Hpre) as (p & Hp).
    assert (Hparse : parseAuthServerArgs
                       (node :: script :: pre ++ "--credentials-file" :: value :: post)
                     = Returned (Some value)).
    { rewrite parseAuthServerArgs_args.
      apply (parse_rest_last_wins pre post value None p Hp Hvalue Hpost). }
    split; [exact Hparse|]. split.
    + intros Hne. apply (main_with_path _ value Hparse Hne).
    + intros ->. apply (main_without_path _ _ Hparse). right. reflexivity.
Qed.

End DriverFacts.

(** ** The AuthServer state machine *)

#[local] Arguments first_free_port : simpl never.

Lemma history_app (os os' : list operation) (s : AuthServerState) :
  history (os ++ os') s = history os' (history os s).
Proof. unfold history. apply fold_left_app. Qed.

Lemma history_preserves (I : AuthServerState -> Prop) :
  (forall o s, I s -> I (apply_operation o s)) ->
  forall os s, I s -> I (history os s).
Proof.
  intros Hstep os. induction os as [|o os IH]; intros s Hs; [exact Hs|].
  cbn [history fold_left]. apply IH. apply Hstep. exact Hs.
Qed.

Ltac open_server s :=
  destruct s as [w [st port done detail] calls bound opened]; cbn in *.

Lemma apply_exchange_invariant (o : operation) (s : AuthServerState) :
  exchange_invariant s -> exchange_invariant (apply_operation o s).
Proof.
  unfold exchange_invariant. open_server s. intros H.
  destruct o as [openBrowser| |[code error|path|outcome]]; cbn.
  - unfold server_start; cbn.
    destruct st; cbn; try exact H.
    destruct (hasValidCredential w); cbn; [exact H|].
    destruct (first_free_port w); cbn; [exact H|]. rewrite H. cbn. lia.
  - exact H.
  - unfold listening; cbn.
    destruct st, port; cbn; try exact H.
    destruct error, code; cbn; rewrite ?H; cbn; lia.
  - exact H.
  - destruct st, port; cbn; try exact H.
    destruct outcome; cbn; exact H.
Qed.

Lemma apply_past_listening (o : operation) (s : AuthServerState) :
  past_listening s ->
  past_listening (apply_operation o s)
  /\ exchangeCalls (apply_operation o s) = exchangeCalls s.
Proof.
  unfold past_listening. open_server s. intros H.
  destruct o as [openBrowser| |[code error|path|outcome]]; cbn.
  - unfold server_start; cbn. destruct st; cbn; tauto.
  - tauto.
  - unfold listening; cbn. destruct st; cbn; tauto.
  - tauto.
  - destruct st, port; cbn; try tauto.
    destruct outcome; cbn; tauto.
Qed.

Lemma history_past_listening (os : list operation) :
  forall s, past_listening s ->
            exchangeCalls (history os s) = exchangeCalls s.
Proof.
  induction os as [|o os IH]; intros s H; [reflexivity|].
  cbn [history fold_left].
  destruct (apply_past_listening o s H) as [Hpast Hcalls].
  rewrite <- Hcalls. apply IH. exact Hpast.
Qed.

(** C7.  In every session, whatever is called or received and in whatever
    order, [exchangeCode] is called at most once.  Once it has been called,
    every further callback request leaves the server exactly as it was.  In
    particular, after a successful bind and a first callback carrying a code,
    the only exchange ever made is the one for that code, however many
    callbacks follow. *)
Theorem exchange_runs_at_most_once (w : Surroundings) (os : list operation) :
  List.length (exchangeCalls (history os (fresh w))) <= 1
  /\ (exchangeCalls (history os (fresh w)) <> [] ->
      forall code error,
        server_handle (Callback code error) (history os (fresh w))
        = history os (fresh w))
  /\ (forall openBrowser first,
        hasValidCredential w = false ->
        first_free_port w <> None ->
        exchangeCalls
          (history (CallStart openBrowser :: Receive (Callback (Some first) None) :: os)
                   (fresh w))
        = [first]).
Proof.
  assert (Hinv : exchange_invariant (history os (fresh w))).
  { apply (history_preserves exchange_invariant).
    - apply apply_exchange_invariant.
    - reflexivity. }
  split; [|split].
  - unfold exchange_invariant in Hinv.
    destruct (status (session (history os (fresh w)))); rewrite ?Hinv; cbn; lia.
  - intros Hcalled code error. unfold exchange_invariant in Hinv.
    unfold server_handle, listening.
    destruct (status (session (history os (fresh w)))); try contradiction; reflexivity.
  - intros openBrowser first Hcred Hport.
    cbn [history fold_left apply_operation].
    unfold server_start at 1. cbn. rewrite Hcred.
    destruct (first_free_port w) as [port|]; [|contradiction]. cbn.
    change (fold_left (fun s o => apply_operation o s) os) with (history os).
    rewrite history_past_listening; [reflexivity|exact I].
Qed.

Lemma apply_flag_invariant (o : operation) (s : AuthServerState) :
  flag_invariant s -> flag_invariant (apply_operation o s).
Proof.
  unfold flag_invariant. open_server s. intros H.
  destruct o as [openBrowser| |[code error|path|outcome]]; cbn.
  - unfold server_start; cbn.
    destruct st; cbn; try exact H.
    destruct (hasValidCredential w); cbn; [reflexivity|].
    destruct (first_free_port w); reflexivity.
  - exact H.
  - unfold listening; cbn.
    destruct st, port; cbn; try exact H.
    destruct error, code; reflexivity.
  - exact H.
  - destruct st, port; cbn; try exact H.
    destruct outcome; reflexivity.
Qed.

Lemma apply_keeps_flag (o : operation) (s : AuthServerState) :
  flag_invariant s ->
  completedSuccessfully (session s) = true ->
  completedSuccessfully (session (apply_operation o s)) = true.
Proof.
  unfold flag_invariant. open_server s. intros H Hflag. subst done.
  destruct o as [openBrowser| |[code error|path|outcome]]; cbn.
  - unfold server_start; cbn. destruct st; cbn; congruence.
  - reflexivity.
  - unfold listening; cbn. destruct st; cbn; congruence.
  - reflexivity.
  - destruct st, port; cbn; congruence.
Qed.

Lemma history_keeps_flag (os : list operation) :
  forall s,
    flag_invariant s ->
    completedSuccessfully (session s) = true ->
    completedSuccessfully (session (history os s)) = true.
Proof.
  induction os as [|o os IH]; intros s Hinv Hflag; [exact Hflag|].
  cbn [history fold_left]. apply IH.
  - apply apply_flag_invariant. exact Hinv.
  - apply apply_keeps_flag; assumption.
Qed.

(** C8, amended.  In every state a session can reach, a true
    [completedSuccessfully] implies that the status is [Completed] or
    [TokenAlreadyValid]; and once the flag is true no later operation,
    [stop] included, makes it false again. *)
Theorem flag_means_success_and_never_reverts
    (w : Surroundings) (os later : list operation) :
  completedSuccessfully (session (history os (fresh w))) = true ->
  (status (session (history os (fresh w))) = Completed
   \/ status (session (history os (fresh w))) = TokenAlreadyValid)
  /\ completedSuccessfully (session (history (os ++ later) (fresh w))) = true
  /\ completedSuccessfully (session (server_stop (history os (fresh w)))) = true.
Proof.
  intros Hflag.
  assert (Hinv : flag_invariant (history os (fresh w))).
  { apply (history_preserves flag_invariant).
    - apply apply_flag_invariant.
    - reflexivity. }
  split; [|split].
  - unfold flag_invariant in Hinv.
    destruct (status (session (history os (fresh w)))); auto; congruence.
  - rewrite history_app. apply history_keeps_flag; assumption.
  - apply (apply_keeps_flag CallStop); assumption.
Qed.

(** C8 as stated fails: with a valid stored credential [start] leaves the
    flag true and the status [TokenAlreadyValid], which is not [Completed]. *)
Lemma flag_true_without_completed :
  completedSuccessfully (session (history [CallStart true] (fresh credential_present)))
  = true
  /\ status (session (history [CallStart true] (fresh credential_present)))
     = TokenAlreadyValid
  /\ ~ (forall w os,
          completedSuccessfully (session (history os (fresh w))) = true ->
          status (session (history os (fresh w))) = Completed).
Proof.
  repeat split. intros H.
  specialize (H credential_present [CallStart true] eq_refl). discriminate H.
Qed.

(** C5.  With a valid stored credential, [start(true)] on a new server
    resolves to true, sets the flag, and binds no listener; [runAuthServer]
    then writes the success message and exits with code 0, having installed
    neither the poll nor the SIGINT handler. *)
Theorem valid_credential_short_circuits
    (w : Surroundings) (initializeOAuth2Client : option string -> thrown + unit)
    (path : option string) (c : unit) :
  hasValidCredential w = true ->
  initializeOAuth2Client path = inr c ->
  snd (server_start true (fresh w)) = inr true
  /\ completedSuccessfully (session (fst (server_start true (fresh w)))) = true
  /\ boundPort (session (fst (server_start true (fresh w)))) = None
  /\ binds (fst (server_start true (fresh w))) = []
  /\ effects (runAuthServer (ops := specAuthServer w) initializeOAuth2Client path)
     = [InitializeOAuth2Client; NewAuthServer; Start true;
        StderrWrite ("Authentication successful." ++ nl); ProcessExit 0]
  /\ exitCode (runAuthServer (ops := specAuthServer w) initializeOAuth2Client path)
     = Some 0%Z
  /\ pollInterval (runAuthServer (ops := specAuthServer w) initializeOAuth2Client path)
     = false
  /\ sigintListener (runAuthServer (ops := specAuthServer w) initializeOAuth2Client path)
     = false.
Proof.
  intros Hvalid Hinit.
  unfold runAuthServer. rewrite Hinit. cbn.
  unfold server_start. cbn. rewrite Hvalid. cbn.
  repeat split.
Qed.

(** ** The theorems at concrete runs *)


Lemma runAuthServer_exit_codes_witness :
  exitCode (run (ops := specAuthServer credential_present)
                [TimerTick; Sigint]
                (runAuthServer (ops := specAuthServer credential_present)
                               client_ready None))
  = Some 0%Z
  /\ exitCode (run (ops := specAuthServer ports_free)
                   (browser_completes ++ TimerTick :: [] ++ [StopSettled PollCallback])
                   (runAuthServer (ops := specAuthServer ports_free)
                                  client_ready None))
     = Some 0%Z
  /\ exitCode (run (ops := specAuthServer ports_taken)
                   [Sigint]
                   (runAuthServer (ops := specAuthServer ports_taken)
                                  client_ready None))
     = Some 1%Z
  /\ exitCode (run (ops := specAuthServer ports_free)
                   []
                   (runAuthServer (ops := specAuthServer ports_free)
                                  client_broken None))
     = Some 1%Z
  /\ exitCode (run (ops := throwingAuthServer) []
                   (runAuthServer (ops := throwingAuthServer)
                                  client_ready None)) = Some 1%Z.
Proof.
  split; [|split; [|split; [|split]]].
  - destruct (runAuthServer_exit_codes (ops := specAuthServer credential_present)
                client_ready None) as (H & _).
    apply (H tt (fst (server_start true (fresh credential_present))) true);
      reflexivity.
  - destruct (runAuthServer_exit_codes (ops := specAuthServer ports_free)
                client_ready None) as (_ & H & _).
    apply (H browser_completes []); reflexivity.
  - destruct (runAuthServer_exit_codes (ops := specAuthServer ports_taken)
                client_ready None) as (_ & _ & H & _).
    apply (H tt (fst (server_start true (fresh ports_taken)))); reflexivity.
  - destruct (runAuthServer_exit_codes (ops := specAuthServer ports_free)
                client_broken None) as (_ & _ & _ & H & _).
    apply (H (ErrorObject "Error loading OAuth keys")). reflexivity.
  - destruct (runAuthServer_exit_codes (ops := throwingAuthServer)
                client_ready None) as (_ & _ & _ & _ & H).
    apply (H tt false (ErrorObject "listen EACCES")); reflexivity.
Defined.

Lemma sigint_stops_once_and_exits_witness :
  pollInterval (run (ops := specAuthServer ports_free)
                    [TimerTick; ServerActivity (UnrelatedPath "/favicon.ico")]
                    (runAuthServer (ops := specAuthServer ports_free)
                                   client_ready None))
  = true
  /\ exitCode
       (run (ops := specAuthServer ports_free) ([TimerTick; ServerActivity (UnrelatedPath "/favicon.ico")]
             ++ Sigint :: browser_completes ++ [StopSettled SigintHandler])
            (runAuthServer (ops := specAuthServer ports_free) client_ready None))
     = Some 0%Z
  /\ stop_calls
       (effects
          (run (ops := specAuthServer ports_free) ([TimerTick; ServerActivity (UnrelatedPath "/favicon.ico")]
                ++ Sigint :: browser_completes ++ [StopSettled SigintHandler])
               (runAuthServer (ops := specAuthServer ports_free) client_ready None)))
     = 1.
Proof.
  split; [reflexivity|].
  apply (sigint_stops_once_and_exits (ops := specAuthServer ports_free)
           client_ready None
           [TimerTick; ServerActivity (UnrelatedPath "/favicon.ico")]
           browser_completes); reflexivity.
Defined.

Lemma poll_observes_stops_then_exits_witness :
  start (AuthServerOps := specAuthServer ports_free) true (fresh ports_free)
  = (fst (server_start true (fresh ports_free)), inr true)
  /\ effects
       (run (ops := specAuthServer ports_free)
            (browser_completes ++ TimerTick :: [] ++ [StopSettled PollCallback])
            (runAuthServer (ops := specAuthServer ports_free) client_ready None))
     = effects (run (ops := specAuthServer ports_free) browser_completes
                    (runAuthServer (ops := specAuthServer ports_free) client_ready None))
       ++ [ClearInterval; Stop;
           StderrWrite ("Authentication successful. Server stopped." ++ nl);
           ProcessExit 0].
Proof.
  split; [reflexivity|].
  destruct (poll_observes_stops_then_exits (ops := specAuthServer ports_free)
              client_ready None tt (fst (server_start true (fresh ports_free)))
              eq_refl eq_refl eq_refl) as (_ & _ & _ & H & _).
  destruct (H browser_completes [] eq_refl eq_refl) as (_ & _ & _ & _ & Hlog).
  apply Hlog. reflexivity.
Defined.

Lemma start_failure_names_port_range_witness :
  start (AuthServerOps := specAuthServer ports_taken) true (fresh ports_taken)
  = (fst (server_start true (fresh ports_taken)), inr false)
  /\ exitCode (runAuthServer (ops := specAuthServer ports_taken) client_ready None)
     = Some 1%Z.
Proof.
  split; [reflexivity|].
  apply (start_failure_names_port_range (ops := specAuthServer ports_taken)
           client_ready None tt (fst (server_start true (fresh ports_taken))));
    reflexivity.
Defined.

Lemma valid_credential_short_circuits_witness :
  hasValidCredential credential_present = true
  /\ exitCode (runAuthServer (ops := specAuthServer credential_present) client_ready None) = Some 0%Z.
Proof.
  split; [reflexivity|].
  apply (valid_credential_short_circuits credential_present client_ready None tt);
    reflexivity.
Defined.

Lemma exchange_runs_at_most_once_witness :
  exchangeCalls
    (history [CallStart true;
              Receive (Callback (Some "ABC") None);
              Receive (Callback (Some "XYZ") None);
              Receive (ExchangeFinished TokensPersisted);
              Receive (Callback (Some "XYZ") None)]
             (fresh ports_free))
  = ["ABC"].
Proof.
  destruct (exchange_runs_at_most_once ports_free
              [Receive (Callback (Some "XYZ") None);
               Receive (ExchangeFinished TokensPersisted);
               Receive (Callback (Some "XYZ") None)]) as (_ & _ & H).
  apply (H true "ABC"); [reflexivity|discriminate].
Defined.

Lemma flag_means_success_and_never_reverts_witness :
  status (session (history [CallStart true;
                            Receive (Callback (Some "ABC") None);
                            Receive (ExchangeFinished TokensPersisted)]
                           (fresh ports_free))) = Completed
  /\ completedSuccessfully
       (session (history ([CallStart true;
                           Receive (Callback (Some "ABC") None);
                           Receive (ExchangeFinished TokensPersisted)]
                          ++ [CallStop; CallStart true;
                              Receive (Callback None (Some "access_denied"))])
                         (fresh ports_free))) = true.
Proof.
  destruct (flag_means_success_and_never_reverts ports_free
              [CallStart true;
               Receive (Callback (Some "ABC") None);
               Receive (ExchangeFinished TokensPersisted)]
              [CallStop; CallStart true;
               Receive (Callback None (Some "access_denied"))]
              eq_refl) as (_ & H & _).
  split; [reflexivity|exact H].
Defined.

Lemma missing_value_exits_before_auth_witness :
  exitCode (main (ops := specAuthServer credential_present) client_ready
                 ["node"; "auth-server.js"; "--verbose"; "--credentials-file"])
  = Some 1%Z
  /\ startsWith "keys.json" "--" = false.
Proof.
  destruct (missing_value_exits_before_auth (ops := specAuthServer credential_present)
              client_ready "node" "auth-server.js"
              ["--verbose"; "--credentials-file"]) as (Hexit & _).
  destruct (missing_value_exits_before_auth (ops := specAuthServer credential_present)
              client_ready "node" "auth-server.js"
              ["--credentials-file"; "keys.json"]) as (_ & Hpath).
  split.
  - apply Hexit. exists 1. split; [reflexivity|left; reflexivity].
  - apply Hpath. reflexivity.
Defined.

Lemma no_option_every_value (args : list string) :
  ~ In "--credentials-file" args -> every_option_has_value args.
Proof.
  intros Hnot i Hi. exfalso. apply Hnot. apply (nth_error_In args i Hi).
Qed.

Lemma credentials_file_overrides_path_witness :
  exists rest,
    effects (main (ops := specAuthServer credential_present) client_ready
                  (["node"; "auth-server.js"]
                   ++ ["--verbose"]
                   ++ "--credentials-file" :: "gcp-oauth.keys.json" :: ["--quiet"]))
    = SetCredentialsPath "gcp-oauth.keys.json" :: InitializeOAuth2Client :: rest.
Proof.
  apply (credentials_file_overrides_path (ops := specAuthServer credential_present)
           client_ready "node" "auth-server.js"
           ["--verbose"] ["--quiet"] "gcp-oauth.keys.json").
  - apply no_option_every_value. cbn. intros [H|[]]. discriminate H.
  - reflexivity.
  - discriminate.
  - cbn. intros [H|[]]. discriminate H.
Defined.

(** C6 as stated fails.  The empty string is accepted as a value and then
    dropped by the test [if (credentialsPath)], so [setCredentialsPath] is
    not called; with two occurrences only the last value is used; and an
    occurrence with a value does not help when another one lacks its value. *)
Lemma credentials_value_not_always_used :
  (parseAuthServerArgs ["node"; "auth-server.js"; "--credentials-file"; ""]
   = Returned (Some "")
   /\ effects (main (ops := specAuthServer credential_present) client_ready
                    ["node"; "auth-server.js"; "--credentials-file"; ""])
      = [InitializeOAuth2Client; NewAuthServer; Start true;
         StderrWrite ("Authentication successful." ++ nl); ProcessExit 0])
  /\ effects (main (ops := specAuthServer credential_present) client_ready
                   ["node"; "auth-server.js";
                    "--credentials-file"; "a.json"; "--credentials-file"; "b.json"])
     = [SetCredentialsPath "b.json"; InitializeOAuth2Client; NewAuthServer;
        Start true; StderrWrite ("Authentication successful." ++ nl); ProcessExit 0]
  /\ effects (main (ops := specAuthServer credential_present) client_ready
                   ["node"; "auth-server.js";
                    "--credentials-file"; "a.json"; "--credentials-file"])
     = [ConsoleError "Option --credentials-file requires a value"; ProcessExit 1]
  /\ ~ (forall pre value post,
          startsWith value "--" = false ->
          In (SetCredentialsPath value)
             (effects (main (ops := specAuthServer credential_present) client_ready
                            ("node" :: "auth-server.js"
                             :: pre ++ "--credentials-file" :: value :: post)))).
Proof.
  repeat split. intros H.
  specialize (H [] "" [] eq_refl). cbn in H.
  repeat (destruct H as [H|H]; [discriminate H|]). exact H.
Qed.

Lemma last_credentials_file_wins_witness :
  parseAuthServerArgs
    (["node"; "auth-server.js"] ++ ["--credentials-file"; "a.json"; "--verbose"]
     ++ "--credentials-file" :: "b.json" :: ["extra"])
  = Returned (Some "b.json")
  /\ parseAuthServerArgs
       (["node"; "auth-server.js"] ++ ["--credentials-file"; "a.json"]
        ++ "--verbose" :: ["extra"])
     = parseAuthServerArgs
         (["node"; "auth-server.js"] ++ ["--credentials-file"; "a.json"] ++ ["extra"]).
Proof.
  destruct (last_credentials_file_wins (ops := specAuthServer credential_present)
              client_ready "node" "auth-server.js") as (Hignore & _ & Hlast).
  split.
  - apply (Hlast ["--credentials-file"; "a.json"; "--verbose"] "b.json" ["extra"]).
    + intros [|[|[|i]]] Hi; cbn in Hi; try discriminate Hi.
      * exists "a.json". split; reflexivity.
      * destruct i; discriminate Hi.
    + reflexivity.
    + cbn. intros [H|[]]. discriminate H.
  - apply (Hignore ["--credentials-file"; "a.json"] "--verbose" ["extra"]).
    + discriminate.
    + cbn. discriminate.
Defined.

(** C10 as stated fails in its last part: an empty value after the last
    occurrence is returned by the parser but is not used as the override,
    and neither is the earlier value. *)
Lemma last_empty_value_is_not_an_override :
  parseAuthServerArgs
    ["node"; "auth-server.js"; "--credentials-file"; "a.json"; "--credentials-file"; ""]
  = Returned (Some "")
  /\ effects (main (ops := specAuthServer credential_present) client_ready
                   ["node"; "auth-server.js";
                    "--credentials-file"; "a.json"; "--credentials-file"; ""])
     = [InitializeOAuth2Client; NewAuthServer; Start true;
        StderrWrite ("Authentication successful." ++ nl); ProcessExit 0]
  /\ existsb is_set_credentials
       (effects (main (ops := specAuthServer credential_present) client_ready
                      ["node"; "auth-server.js";
                       "--credentials-file"; "a.json"; "--credentials-file"; ""]))
     = false
  /\ ~ (forall pre value post,
          every_option_has_value pre ->
          startsWith value "--" = false ->
          ~ In "--credentials-file" post ->
          In (SetCredentialsPath value)
             (effects (main (ops := specAuthServer credential_present) client_ready
                            ("node" :: "auth-server.js"
                             :: pre ++ "--credentials-file" :: value :: post)))).
Proof.
  repeat split. intros H.
  assert (Hpre : every_option_has_value ["--credentials-file"; "a.json"]).
  { intros [|[|i]] Hi; cbn in Hi; try discriminate Hi.
    - exists "a.json". split; reflexivity.
    - destruct i; discriminate Hi. }
  specialize (H ["--credentials-file"; "a.json"] "" [] Hpre eq_refl (fun F => F)).
  cbn in H.
  repeat (destruct H as [H|H]; [discriminate H|]). exact H.
Qed.

(** ** Further runs of the definitions *)

Example parse_no_option :
  parseAuthServerArgs ["node"; "auth-server.js"; "--verbose"] = Returned None.
Proof. reflexivity. Qed.

Example parse_from_the_middle :
  parse_loop ["--credentials-file"; "--credentials-file"; "keys.json"] 1 None
  = Returned (Some "keys.json").
Proof. reflexivity. Qed.

Example parse_single_dash_value :
  parseAuthServerArgs ["node"; "auth-server.js"; "--credentials-file"; "-"]
  = Returned (Some "-").
Proof. reflexivity. Qed.

(** Ports 3000 and 3001 taken: the listener falls back to 3002. *)
Example port_fallback :
  binds (fst (server_start true
                (fresh {| hasValidCredential := false;
                          occupied := [3001; 3000]%Z |})))
  = [3002%Z].
Proof. reflexivity. Qed.

(** Scenario B of the specification. *)
Example scenario_browser_flow :
  session (history [CallStart true;
                    Receive (UnrelatedPath "/favicon.ico");
                    Receive (Callback (Some "ABC") None);
                    Receive (ExchangeFinished TokensPersisted);
                    Receive (Callback (Some "XYZ") None)]
                   (fresh ports_free))
  = {| status := Completed; boundPort := None;
       completedSuccessfully := true; errorDetail := None |}.
Proof. reflexivity. Qed.

(** Scenario C of the specification. *)
Example scenario_ports_exhausted :
  snd (server_start true (fresh ports_taken)) = inr false
  /\ completedSuccessfully (session (fst (server_start true (fresh ports_taken))))
     = false.
Proof. split; reflexivity. Qed.

(** Scenario D of the specification. *)
Example scenario_access_denied :
  session (history [CallStart true;
                    Receive (Callback None (Some "access_denied"))]
                   (fresh ports_free))
  = {| status := Failed; boundPort := None;
       completedSuccessfully := false;
       errorDetail := Some "ProviderDenied: access_denied" |}.
Proof. reflexivity. Qed.

(** The SIGINT handler stays registered: a second interrupt that arrives
    while the first handler still awaits [stop()] calls [stop()] again. *)
Example second_interrupt_calls_stop_again :
  stop_calls
    (effects (run (ops := specAuthServer ports_free)
                  [Sigint; Sigint; StopSettled SigintHandler]
                  (runAuthServer (ops := specAuthServer ports_free)
                                 client_ready None)))
  = 2.
Proof. reflexivity. Qed.

(** An interrupt between the tick that saw the flag and the end of its
    [stop()] exits with code 0 as well, without the success message. *)
Example interrupt_overtakes_poll :
  effects (run (ops := specAuthServer ports_free)
               (browser_completes
                ++ [TimerTick; Sigint; StopSettled SigintHandler;
                    StopSettled PollCallback])
               (runAuthServer (ops := specAuthServer ports_free)
                              client_ready None))
  = [InitializeOAuth2Client; NewAuthServer; Start true;
     StderrWrite waiting_message; SetInterval 1000; OnSigint;
     ClearInterval; Stop; ClearInterval; Stop; ProcessExit 0].
Proof. reflexivity. Qed.

(** * Further properties of the source *)

(** ** More on [parseAuthServerArgs] *)

(** A path once read is never forgotten. *)
Lemma parse_rest_keeps_a_path (rest : list string) :
  forall v p, parse_rest rest (Some v) = Returned p -> p <> None.
Proof.
  induction rest as [|a l IH1 IH2] using list_ind_two; intros v p H.
  - cbn in H. injection H as <-. discriminate.
  - cbn [parse_rest] in H.
    destruct (a =? "--credentials-file").
    + destruct l as [|w l']; [discriminate|].
      destruct (negb (startsWith w "--")); [|discriminate].
      apply (IH2 w l' eq_refl w p H).
    + apply (IH1 v p H).
Qed.

(** The only way out of the loop other than its end. *)
Lemma parse_rest_exit_reason (rest : list string) :
  forall credentialsPath line code,
    parse_rest rest credentialsPath = Exited line code ->
    line = "Option --credentials-file requires a value" /\ code = 1%Z
    /\ some_option_lacks_value rest.
Proof.
  induction rest as [|a l IH1 IH2] using list_ind_two; intros cp line code H.
  - discriminate.
  - cbn [parse_rest] in H.
    destruct (String.eqb_spec a "--credentials-file") as [->|Hne].
    + destruct l as [|w l'].
      * injection H as <- <-. repeat split.
        exists 0. split; [reflexivity|left; reflexivity].
      * destruct (startsWith w "--") eqn:Hw; cbn [negb] in H.
        -- injection H as <- <-. repeat split.
           exists 0. split; [reflexivity|right]. exists w. split; [reflexivity|exact Hw].
        -- destruct (IH2 w l' eq_refl _ _ _ H) as (Hl & Hc & i & Hi & Hnext).
           repeat split; [exact Hl|exact Hc|].
           exists (S (S i)). split; [exact Hi|exact Hnext].
    + destruct (IH1 _ _ _ H) as (Hl & Hc & i & Hi & Hnext).
      repeat split; [exact Hl|exact Hc|].
      exists (S i). split; [exact Hi|exact Hnext].
Qed.

Lemma parse_rest_returned_all_valued (rest : list string) (credentialsPath p : option string) :
  parse_rest rest credentialsPath = Returned p -> every_option_has_value rest.
Proof.
  intros Hret i Hi.
  destruct (nth_error rest (S i)) as [next|] eqn:Hnext.
  - destruct (startsWith next "--") eqn:Hbad.
    + rewrite (parse_rest_missing_value rest credentialsPath i Hi) in Hret;
        [discriminate|].
      right. exists next. split; [exact Hnext|exact Hbad].
    + exists next. split; [reflexivity|exact Hbad].
  - rewrite (parse_rest_missing_value rest credentialsPath i Hi) in Hret;
      [discriminate|].
    left. exact Hnext.
Qed.

(** X1.  The parser returns exactly when every [--credentials-file] on the
    command line is followed by an argument not starting with [--]; it exits
    exactly when some occurrence is not; and when it exits it is always with
    the one message and code 1. *)
Theorem parser_accepts_iff_every_option_has_value
    (node script : string) (args : list string) :
  ((exists credentialsPath,
       parseAuthServerArgs (node :: script :: args) = Returned credentialsPath)
   <-> every_option_has_value args)
  /\ ((exists line code,
          parseAuthServerArgs (node :: script :: args) = Exited line code)
      <-> some_option_lacks_value args)
  /\ (forall line code,
        parseAuthServerArgs (node :: script :: args) = Exited line code ->
        line = "Option --credentials-file requires a value" /\ code = 1%Z).
Proof.
  rewrite parseAuthServerArgs_args. split; [|split].
  - split.
    + intros (p & Hp). apply (parse_rest_returned_all_valued args None p Hp).
    + intros Hall. apply parse_rest_complete. exact Hall.
  - split.
    + intros (line & code & H). apply (parse_rest_exit_reason args None line code H).
    + intros Hlack. eexists. eexists. apply parse_rest_lacking. exact Hlack.
  - intros line code H.
    destruct (parse_rest_exit_reason args None line code H) as (Hl & Hc & _).
    split; assumption.
Qed.

Lemma parse_rest_none_no_option (rest : list string) :
  forall credentialsPath,
    parse_rest rest credentialsPath = Returned None ->
    ~ In "--credentials-file" rest.
Proof.
  induction rest as [|a l IH1 IH2] using list_ind_two; intros cp H.
  - intros [].
  - cbn [parse_rest] in H.
    destruct (String.eqb_spec a "--credentials-file") as [->|Hne].
    + destruct l as [|w l']; [discriminate|].
      destruct (negb (startsWith w "--")); [|discriminate].
      exfalso. apply (parse_rest_keeps_a_path l' w None H). reflexivity.
    + intros [E|Hin]; [congruence|]. apply (IH1 cp H Hin).
Qed.

(** X2.  The parser returns no path (undefined) exactly when the option does not
    occur on the command line. *)
Theorem no_path_iff_option_absent (node script : string) (args : list string) :
  parseAuthServerArgs (node :: script :: args) = Returned None
  <-> ~ In "--credentials-file" args.
Proof.
  rewrite parseAuthServerArgs_args. split.
  - apply parse_rest_none_no_option.
  - apply parse_rest_no_option.
Qed.

Lemma every_value_cons_other (a : string) (l : list string) :
  a <> "--credentials-file" ->
  every_option_has_value l -> every_option_has_value (a :: l).
Proof.
  intros Hne Hl [|i] Hi; cbn in Hi.
  - injection Hi as ->. contradiction.
  - apply (Hl i Hi).
Qed.

Lemma every_value_cons_pair (v : string) (l : list string) :
  startsWith v "--" = false ->
  every_option_has_value l ->
  every_option_has_value ("--credentials-file" :: v :: l).
Proof.
  intros Hv Hl [|[|i]] Hi; cbn in Hi.
  - exists v. split; [reflexivity|exact Hv].
  - injection Hi as ->. discriminate Hv.
  - apply (Hl i Hi).
Qed.

Lemma parse_rest_path_origin (rest : list string) :
  forall credentialsPath v,
    parse_rest rest credentialsPath = Returned (Some v) ->
    (credentialsPath = Some v /\ ~ In "--credentials-file" rest)
    \/ exists pre post,
         rest = pre ++ "--credentials-file" :: v :: post
         /\ every_option_has_value pre
         /\ startsWith v "--" = false
         /\ ~ In "--credentials-file" post.
Proof.
  induction rest as [|a l IH1 IH2] using list_ind_two; intros cp v H.
  - cbn in H. injection H as ->. left. split; [reflexivity|intros []].
  - cbn [parse_rest] in H.
    destruct (String.eqb_spec a "--credentials-file") as [->|Hne].
    + destruct l as [|w l']; [discriminate|].
      destruct (startsWith w "--") eqn:Hw; cbn [negb] in H; [discriminate|].
      right.
      destruct (IH2 w l' eq_refl _ _ H) as [[E Hnone] | (pre & post & -> & Hpre & Hv & Hpost)].
      * injection E as ->. exists [], l'. repeat split; auto.
        intros i Hi. destruct i; discriminate Hi.
      * exists ("--credentials-file" :: w :: pre), post. repeat split; auto.
        apply every_value_cons_pair; assumption.
    + destruct (IH1 _ _ H) as [[E Hnone] | (pre & post & -> & Hpre & Hv & Hpost)].
      * left. split; [exact E|]. intros [E'|Hin]; [congruence|exact (Hnone Hin)].
      * right. exists (a :: pre), post. repeat split; auto.
        apply every_value_cons_other; assumption.
Qed.

(** X3.  A path returned by the parser is an argument of the command line: the one
    right after the last [--credentials-file]; it does not start with [--]
    and every earlier occurrence of the option has a value as well. *)
Theorem returned_path_follows_last_option
    (node script : string) (args : list string) (path : string) :
  parseAuthServerArgs (node :: script :: args) = Returned (Some path) ->
  exists pre post,
    args = pre ++ "--credentials-file" :: path :: post
    /\ every_option_has_value pre
    /\ startsWith path "--" = false
    /\ ~ In "--credentials-file" post.
Proof.
  rewrite parseAuthServerArgs_args. intros H.
  destruct (parse_rest_path_origin args None path H) as [[E _] | Hdec];
    [discriminate|exact Hdec].
Qed.

Lemma returned_path_follows_last_option_witness :
  exists pre post,
    ["--credentials-file"; "a.json"; "-v"; "--credentials-file"; "b.json"; "x"]
    = pre ++ "--credentials-file" :: "b.json" :: post
    /\ every_option_has_value pre
    /\ startsWith "b.json" "--" = false
    /\ ~ In "--credentials-file" post.
Proof.
  apply (returned_path_follows_last_option "node" "auth-server.js"
           ["--credentials-file"; "a.json"; "-v"; "--credentials-file"; "b.json"; "x"]
           "b.json").
  reflexivity.
Defined.

Lemma parse_rest_default (rest : list string) :
  forall credentialsPath,
    parse_rest rest credentialsPath
    = match parse_rest rest None with
      | Returned None => Returned credentialsPath
      | result => result
      end.
Proof.
  induction rest as [|a l IH1 IH2] using list_ind_two; intros cp.
  - reflexivity.
  - cbn [parse_rest].
    destruct (a =? "--credentials-file").
    + destruct l as [|w l']; [reflexivity|].
      destruct (negb (startsWith w "--")); [|reflexivity].
      destruct (parse_rest l' (Some w)) as [[p|]|line code] eqn:H; try reflexivity.
      exfalso. apply (parse_rest_keeps_a_path l' w None H). reflexivity.
    + apply IH1.
Qed.

(** X4.  Parsing a command line in two parts: when the first part is accepted,
    the whole is decided by the second part, and the path of the first part
    stands exactly when the second part names none. *)
Theorem parse_of_concatenation
    (node script : string) (pre rest : list string) (earlier : option string) :
  parseAuthServerArgs (node :: script :: pre) = Returned earlier ->
  parseAuthServerArgs (node :: script :: pre ++ rest)
  = match parseAuthServerArgs (node :: script :: rest) with
    | Returned None => Returned earlier
    | result => result
    end.
Proof.
  rewrite !parseAuthServerArgs_args. intros Hpre.
  rewrite (parse_rest_app pre rest None earlier Hpre).
  apply parse_rest_default.
Qed.

Lemma parse_of_concatenation_witness :
  parseAuthServerArgs
    ("node" :: "auth-server.js" :: ["--credentials-file"; "a.json"] ++ ["-v"])
  = Returned (Some "a.json")
  /\ parseAuthServerArgs
       ("node" :: "auth-server.js"
        :: ["--credentials-file"; "a.json"] ++ ["--credentials-file"; "b.json"])
     = Returned (Some "b.json").
Proof.
  split.
  - apply (parse_of_concatenation "node" "auth-server.js"
             ["--credentials-file"; "a.json"] ["-v"] (Some "a.json")).
    reflexivity.
  - apply (parse_of_concatenation "node" "auth-server.js"
             ["--credentials-file"; "a.json"] ["--credentials-file"; "b.json"]
             (Some "a.json")).
    reflexivity.
Defined.

(** X5.  The loop started at index [i] looks at nothing before [i]: it gives what
    the loop started at 0 gives on [args.slice(i)]; started at or past the
    end it returns the path it was given. *)
Theorem parse_loop_reads_only_the_suffix
    (args : list string) (i : nat) (credentialsPath : option string) :
  parse_loop args i credentialsPath = parse_loop (skipn i args) 0 credentialsPath
  /\ (List.length args <= i -> parse_loop args i credentialsPath = Returned credentialsPath).
Proof.
  split.
  - rewrite !parse_loop_rest. reflexivity.
  - intros Hend. rewrite parse_loop_rest, skipn_all2 by exact Hend. reflexivity.
Qed.

Lemma parse_loop_reads_only_the_suffix_witness :
  parse_loop ["--credentials-file"; "a.json"] 2 (Some "kept") = Returned (Some "kept").
Proof.
  apply (parse_loop_reads_only_the_suffix ["--credentials-file"; "a.json"] 2 (Some "kept")).
  cbn. lia.
Defined.

(** ** More on [runAuthServer] and the top-level block *)

Section DriverMore.

Context {Client Server Activity : Type}.
Context {ops : AuthServerOps Client Server Activity}.
Variable initializeOAuth2Client : option string -> thrown + Client.

(** X6.  How start-up ends is decided by what [initializeOAuth2Client] and
    [start] do and by the flag after [start], and by nothing else: exit 0
    exactly when the flag is true (whatever [start] returned); exit 1 exactly
    when the client or [start] throws or [start] returns false with the flag
    false; back to the event loop exactly when [start] returned true with the
    flag false.  The poll and the SIGINT handler are installed in the last
    case and in no other. *)
Theorem startup_outcome_iff (path : option string) :
  (exitCode (runAuthServer initializeOAuth2Client path) = Some 0%Z
   <-> exists c s success,
         initializeOAuth2Client path = inr c
         /\ start true (newAuthServer c) = (s, inr success)
         /\ authCompletedSuccessfully s = true)
  /\ (exitCode (runAuthServer initializeOAuth2Client path) = Some 1%Z
      <-> (exists error, initializeOAuth2Client path = inl error)
          \/ (exists c s error,
                initializeOAuth2Client path = inr c
                /\ start true (newAuthServer c) = (s, inl error))
          \/ (exists c s,
                initializeOAuth2Client path = inr c
                /\ start true (newAuthServer c) = (s, inr false)
                /\ authCompletedSuccessfully s = false))
  /\ (exitCode (runAuthServer initializeOAuth2Client path) = None
      <-> exists c s,
            initializeOAuth2Client path = inr c
            /\ start true (newAuthServer c) = (s, inr true)
            /\ authCompletedSuccessfully s = false)
  /\ pollInterval (runAuthServer initializeOAuth2Client path)
     = match exitCode (runAuthServer initializeOAuth2Client path) with
       | None => true
       | Some _ => false
       end
  /\ sigintListener (runAuthServer initializeOAuth2Client path)
     = pollInterval (runAuthServer initializeOAuth2Client path).
Proof.
  unfold runAuthServer.
  destruct (initializeOAuth2Client path) as [error|c] eqn:Hinit.
  - cbn. repeat split; try discriminate.
    + intros (c & s & success & H & _). discriminate H.
    + intros _. left. exists error. reflexivity.
    + intros (c & s & H & _). discriminate H.
  - destruct (start true (newAuthServer c)) as [s [error|success]] eqn:Hstart.
    + cbn. repeat split; try discriminate.
      * intros (c' & s' & success & H1 & H2 & _).
        injection H1 as <-. rewrite Hstart in H2. discriminate H2.
      * intros _. right. left. exists c, s, error. split; [reflexivity|exact Hstart].
      * intros (c' & s' & H1 & H2 & _).
        injection H1 as <-. rewrite Hstart in H2. discriminate H2.
    + destruct success, (authCompletedSuccessfully s) eqn:Hflag; cbn;
        repeat split; try discriminate.
      all: try (intros (c' & s' & success' & H1 & H2 & H3);
                injection H1 as <-; rewrite Hstart in H2;
                injection H2 as <- <-; congruence).
      all: try (intros (c' & s' & H1 & H2 & H3);
                injection H1 as <-; rewrite Hstart in H2;
                injection H2 as <-; congruence).
      all: try (intros [(error & H) | [(c' & s' & error & H1 & H2) | (c' & s' & H1 & H2 & H3)]];
                [discriminate H
                | injection H1 as <-; rewrite Hstart in H2; discriminate H2
                | injection H1 as <-; rewrite Hstart in H2;
                  injection H2 as <-; congruence]).
      * intros _. exists c, s, true. repeat split; assumption.
      * intros _. exists c, s. repeat split; assumption.
      * intros _. exists c, s, false. repeat split; assumption.
      * intros _. right. right. exists c, s. repeat split; assumption.
Qed.

(** X7.  During start-up [stop()] is called in one case only, after [start]
    threw, once and before the exit.  When the client could not be made
    there is no server to stop; when [start] returned, whatever it returned,
    start-up ends (exit 0, exit 1 or the poll) without calling [stop()]. *)
Theorem startup_stops_only_after_a_throw (path : option string) :
  (forall c s error,
      initializeOAuth2Client path = inr c ->
      start true (newAuthServer c) = (s, inl error) ->
      stop_calls (effects (runAuthServer initializeOAuth2Client path)) = 1
      /\ happens_before is_stop is_exit
           (effects (runAuthServer initializeOAuth2Client path)) = true
      /\ authServer (runAuthServer initializeOAuth2Client path) = Some (stop s))
  /\ (forall error,
        initializeOAuth2Client path = inl error ->
        stop_calls (effects (runAuthServer initializeOAuth2Client path)) = 0
        /\ authServer (runAuthServer initializeOAuth2Client path) = None)
  /\ (forall c s success,
        initializeOAuth2Client path = inr c ->
        start true (newAuthServer c) = (s, inr success) ->
        stop_calls (effects (runAuthServer initializeOAuth2Client path)) = 0
        /\ authServer (runAuthServer initializeOAuth2Client path) = Some s).
Proof.
  unfold runAuthServer. split; [|split].
  - intros c s error Hinit Hstart. rewrite Hinit, Hstart. repeat split.
  - intros error Hinit. rewrite Hinit. repeat split.
  - intros c s success Hinit Hstart. rewrite Hinit, Hstart.
    destruct success, (authCompletedSuccessfully s); repeat split.
Qed.

(** *** What the handlers can add to the log *)

Lemma step_effects (e : event Activity) (p : process) :
  exists tail,
    effects (step e p) = effects p ++ tail /\ forallb handler_effect tail = true.
Proof.
  unfold step.
  destruct (exitCode p); [exists []; rewrite app_nil_r; auto|].
  destruct e as [| |k|a].
  - destruct (pollInterval p); [|exists []; rewrite app_nil_r; auto].
    unfold poll_callback.
    destruct (authServer p) as [s|]; [|exists []; rewrite app_nil_r; auto].
    destruct (authCompletedSuccessfully s); [|exists []; rewrite app_nil_r; auto].
    exists [ClearInterval; Stop]. cbn. rewrite <- app_assoc. auto.
  - destruct (sigintListener p); [|exists []; rewrite app_nil_r; auto].
    unfold sigint_handler. cbn.
    destruct (authServer p) as [s|].
    + exists [ClearInterval; Stop]. cbn. rewrite <- app_assoc. auto.
    + exists [ClearInterval; ProcessExit 0]. cbn. rewrite <- app_assoc. auto.
  - destruct (awaiting k p); [exists []; rewrite app_nil_r; auto|].
    destruct k; cbn.
    + exists [StderrWrite ("Authentication successful. Server stopped." ++ nl);
              ProcessExit 0].
      rewrite <- app_assoc. auto.
    + exists [ProcessExit 0]. auto.
  - destruct (authServer p); exists []; rewrite app_nil_r; auto.
Qed.

Lemma run_effects (events : list (event Activity)) :
  forall p,
    exists tail,
      effects (run events p) = effects p ++ tail
      /\ forallb handler_effect tail = true.
Proof.
  induction events as [|e events IH]; intros p.
  - exists []. rewrite app_nil_r. auto.
  - rewrite run_cons.
    destruct (step_effects e p) as (t1 & H1 & F1).
    destruct (IH (step e p)) as (t2 & H2 & F2).
    exists (t1 ++ t2). rewrite H2, H1, <- app_assoc, forallb_app, F1, F2. auto.
Qed.

(** X8.  Whatever reaches the driver after start-up, it only ever adds four kinds
    of action to what start-up did: clearing the timer, calling [stop()],
    writing the closing success message, exiting with code 0.  So it never
    makes a second client or server, never calls [start] again, never arms a
    second timer or registers a second handler, never writes a failure,
    never exits with another code. *)
Theorem handlers_only_clean_up
    (path : option string) (events : list (event Activity)) :
  exists tail,
    effects (run events (runAuthServer initializeOAuth2Client path))
    = effects (runAuthServer initializeOAuth2Client path) ++ tail
    /\ forallb handler_effect tail = true.
Proof.
  generalize (runAuthServer initializeOAuth2Client path).
  induction events as [|e events IH]; intros p.
  - exists []. rewrite app_nil_r. split; reflexivity.
  - rewrite run_cons.
    destruct (step_effects e p) as (first & Hfirst & Ffirst).
    destruct (IH (step e p)) as (later & Hlater & Flater).
    exists (first ++ later). split.
    + rewrite Hlater, Hfirst, <- app_assoc. reflexivity.
    + rewrite forallb_app, Ffirst, Flater. reflexivity.
Qed.

(** *** How often [stop()] is called *)

Ltac count_stops :=
  rewrite ?stop_calls_app;
  repeat match goal with
         | |- context [stop_calls (?e :: ?l)] =>
             let n := eval vm_compute in (stop_calls (e :: l)) in
             change (stop_calls (e :: l)) with n
         end.

Lemma step_stop_budget (e : event Activity) (p : process) :
  stop_calls (effects (step e p)) + armed (step e p)
  <= stop_calls (effects p) + armed p + (if is_sigint e then 1 else 0).
Proof.
  unfold step, armed.
  destruct (exitCode p); [destruct (is_sigint e); lia|].
  destruct e as [| |k|a]; cbn [is_sigint].
  - destruct (pollInterval p) eqn:Hpoll; [|rewrite Hpoll; lia].
    unfold poll_callback.
    destruct (authServer p) as [s|]; [|rewrite Hpoll; lia].
    destruct (authCompletedSuccessfully s); [|rewrite Hpoll; lia].
    cbn. count_stops. lia.
  - destruct (sigintListener p); [|lia].
    unfold sigint_handler. cbn.
    destruct (authServer p) as [s|]; cbn; count_stops;
      destruct (pollInterval p); lia.
  - destruct (awaiting k p); [lia|].
    destruct k; cbn; count_stops; lia.
  - destruct (authServer p); cbn; lia.
Qed.

Lemma run_stop_budget (events : list (event Activity)) :
  forall p,
    stop_calls (effects (run events p)) + armed (run events p)
    <= stop_calls (effects p) + armed p + sigints events.
Proof.
  induction events as [|e events IH]; intros p.
  - cbn. lia.
  - rewrite run_cons. specialize (IH (step e p)).
    pose proof (step_stop_budget e p) as Hstep.
    unfold sigints in *. cbn [filter].
    destruct (is_sigint e); cbn [List.length]; lia.
Qed.

(** X9.  In a whole run [stop()] is called at most once plus once per interrupt:
    the poll calls it at most once, since it clears its timer before it
    awaits, and start-up calls it only when the poll is never installed. *)
Theorem stop_calls_bounded_by_interrupts
    (path : option string) (events : list (event Activity)) :
  stop_calls (effects (run events (runAuthServer initializeOAuth2Client path)))
  <= 1 + sigints events.
Proof.
  pose proof (run_stop_budget events (runAuthServer initializeOAuth2Client path)) as H.
  assert (H0 : stop_calls (effects (runAuthServer initializeOAuth2Client path))
               + armed (runAuthServer initializeOAuth2Client path) <= 1).
  { unfold runAuthServer, armed.
    destruct (initializeOAuth2Client path) as [error|c]; [cbn; count_stops; lia|].
    destruct (start true (newAuthServer c)) as [s [error|success]];
      [cbn; count_stops; lia|].
    destruct success, (authCompletedSuccessfully s); cbn; count_stops; lia. }
  lia.
Qed.

(** *** A poll that never sees the flag *)




(** *** The poll and an interrupt together *)

(** X11.  When a tick has seen the flag and an interrupt arrives before the
    [stop()] of that tick has resolved, [stop()] is called a second time:
    the log grows by clear, stop, clear, stop, and the process has not exited
    yet. *)
Theorem interrupt_after_tick_stops_again
    (path : option string) (before : list (event Activity)) :
  pollInterval (run before (runAuthServer initializeOAuth2Client path)) = true ->
  flag (run before (runAuthServer initializeOAuth2Client path)) = true ->
  effects (run (before ++ [TimerTick; Sigint])
               (runAuthServer initializeOAuth2Client path))
  = effects (run before (runAuthServer initializeOAuth2Client path))
    ++ [ClearInterval; Stop; ClearInterval; Stop]
  /\ stop_calls
       (effects (run (before ++ [TimerTick; Sigint])
                     (runAuthServer initializeOAuth2Client path))) = 2
  /\ exitCode (run (before ++ [TimerTick; Sigint])
                   (runAuthServer initializeOAuth2Client path)) = None.
Proof.
  intros Harmed Hflag.
  pose proof (armed_invariant initializeOAuth2Client path before Harmed) as Hinv.
  destruct (inv_armed _ Hinv Harmed) as (_ & _ & _ & Hcalls).
  destruct (tick_sees_flag _ Hinv Harmed Hflag) as (Hlog & _ & Hexit & _).
  pose proof (step_polling_invariant TimerTick _ Hinv) as Hinv'.
  rewrite run_app. cbn [run fold_left].
  set (p1 := run before (runAuthServer initializeOAuth2Client path)) in *.
  set (p2 := step TimerTick p1) in *.
  assert (Hsig : effects (step Sigint p2) = effects p2 ++ [ClearInterval; Stop]
                 /\ exitCode (step Sigint p2) = None).
  { unfold step, sigint_handler. rewrite Hexit, (inv_listener _ Hinv'). cbn.
    pose proof (inv_server _ Hinv') as Hsrv.
    destruct (authServer p2) as [s|]; [|contradiction].
    cbn. rewrite <- app_assoc. split; [reflexivity|exact Hexit]. }
  destruct Hsig as (Hlog2 & Hexit2).
  rewrite Hlog2, Hlog, <- app_assoc. repeat split; [|exact Hexit2].
  rewrite stop_calls_app, Hcalls. reflexivity.
Qed.

(** *** The whole program *)

Lemma step_preceded_by (done : list effect) (e : event Activity) (p : process) :
  step e (preceded_by done p) = preceded_by done (step e p).
Proof.
  unfold step. cbn.
  destruct (exitCode p); [reflexivity|].
  destruct e as [| |k|a].
  - destruct (pollInterval p); [|reflexivity].
    unfold poll_callback. cbn.
    destruct (authServer p) as [s|]; [|reflexivity].
    destruct (authCompletedSuccessfully s); [|reflexivity].
    unfold call_stop, clear_interval, preceded_by. cbn.
    rewrite <- !app_assoc. reflexivity.
  - destruct (sigintListener p); [|reflexivity].
    unfold sigint_handler. cbn.
    destruct (authServer p) as [s|];
      unfold call_stop, clear_interval, exit, preceded_by; cbn;
      rewrite <- !app_assoc; reflexivity.
  - destruct k; cbn.
    + destruct (pollAwaiting p); [reflexivity|].
      unfold after_stop, exit, emit, resume, preceded_by. cbn.
      rewrite <- !app_assoc. reflexivity.
    + destruct (sigintAwaiting p); [reflexivity|].
      unfold after_stop, exit, resume, preceded_by. cbn.
      rewrite <- !app_assoc. reflexivity.
  - destruct (authServer p); reflexivity.
Qed.

Lemma run_preceded_by (done : list effect) (events : list (event Activity)) :
  forall p, run events (preceded_by done p) = preceded_by done (run events p).
Proof.
  induction events as [|e events IH]; intros p; [reflexivity|].
  rewrite !run_cons, step_preceded_by. apply IH.
Qed.

Lemma main_after_parse
    (argv : list string) (credentialsPath : option string)
    (events : list (event Activity)) :
  parseAuthServerArgs argv = Returned credentialsPath ->
  exitCode (run events (main initializeOAuth2Client argv))
  = exitCode (run events (runAuthServer initializeOAuth2Client (override credentialsPath)))
  /\ effects (run events (main initializeOAuth2Client argv))
     = override_effects credentialsPath
       ++ effects (run events
                       (runAuthServer initializeOAuth2Client (override credentialsPath)))
  /\ authServer (run events (main initializeOAuth2Client argv))
     = authServer (run events
                       (runAuthServer initializeOAuth2Client (override credentialsPath)))
  /\ pollInterval (run events (main initializeOAuth2Client argv))
     = pollInterval (run events
                         (runAuthServer initializeOAuth2Client (override credentialsPath))).
Proof.
  intros Hparse. unfold main, override_effects, override. rewrite Hparse.
  destruct credentialsPath as [v|]; cbn [truthy]; [|repeat split].
  destruct (negb (v =? "")); [|repeat split].
  rewrite run_preceded_by. repeat split.
Qed.

(** X12.  The credentials option touches nothing but the path: for an accepted
    command line the program behaves, under every sequence of events, as
    [runAuthServer] does with the path in force, and its log is that of
    [runAuthServer] after the one call of [setCredentialsPath], if any. *)
Theorem main_behaves_as_runAuthServer
    (argv : list string) (credentialsPath : option string)
    (events : list (event Activity)) :
  parseAuthServerArgs argv = Returned credentialsPath ->
  exitCode (run events (main initializeOAuth2Client argv))
  = exitCode (run events (runAuthServer initializeOAuth2Client (override credentialsPath)))
  /\ effects (run events (main initializeOAuth2Client argv))
     = override_effects credentialsPath
       ++ effects (run events
                       (runAuthServer initializeOAuth2Client (override credentialsPath)))
  /\ authServer (run events (main initializeOAuth2Client argv))
     = authServer (run events
                       (runAuthServer initializeOAuth2Client (override credentialsPath)))
  /\ pollInterval (run events (main initializeOAuth2Client argv))
     = pollInterval (run events
                         (runAuthServer initializeOAuth2Client (override credentialsPath))).
Proof.
  intros Hparse. unfold main. rewrite Hparse.
  destruct credentialsPath as [v|].
  - unfold override_effects, override. cbn [truthy].
    destruct (String.eqb_spec v "") as [Hempty|Hfull]; cbn [negb].
    + repeat split.
    + rewrite run_preceded_by. repeat split.
  - repeat split.
Qed.




Lemma startup_sets_no_path (path : option string) :
  filter is_set_credentials (effects (runAuthServer initializeOAuth2Client path)) = [].
Proof.
  unfold runAuthServer.
  destruct (initializeOAuth2Client path) as [error|c]; [reflexivity|].
  destruct (start true (newAuthServer c)) as [s [error|success]]; [reflexivity|].
  destruct success, (authCompletedSuccessfully s); reflexivity.
Qed.

Lemma handlers_set_no_path (tail : list effect) :
  forallb handler_effect tail = true -> filter is_set_credentials tail = [].
Proof.
  induction tail as [|e tail IH]; intros H; [reflexivity|].
  cbn [forallb] in H. apply andb_true_iff in H as [He Ht].
  cbn [filter]. destruct e; try discriminate He; cbn; apply IH; exact Ht.
Qed.

Lemma driver_sets_no_path (path : option string) (events : list (event Activity)) :
  filter is_set_credentials
    (effects (run events (runAuthServer initializeOAuth2Client path))) = [].
Proof.
  destruct (run_effects events (runAuthServer initializeOAuth2Client path))
    as (tail & -> & Htail).
  rewrite filter_app, startup_sets_no_path, (handlers_set_no_path tail Htail).
  reflexivity.
Qed.

(** X14.  [setCredentialsPath] is called at most once in a whole run, and then as
    the very first action, with the path the parser returned; that path is
    never the empty string and never starts with [--]. *)
Theorem credentials_path_set_once_first_and_valid
    (argv : list string) (events : list (event Activity)) (path : string) :
  In (SetCredentialsPath path) (effects (run events (main initializeOAuth2Client argv))) ->
  parseAuthServerArgs argv = Returned (Some path)
  /\ path <> ""
  /\ startsWith path "--" = false
  /\ exists rest,
       effects (run events (main initializeOAuth2Client argv))
       = SetCredentialsPath path :: rest
       /\ filter is_set_credentials rest = [].
Proof.
  intros Hin.
  destruct (parseAuthServerArgs argv) as [credentialsPath|line code0] eqn:Hparse.
  - destruct (main_after_parse argv credentialsPath events Hparse) as (_ & Hlog & _).
    rewrite Hlog in *. clear Hlog.
    pose proof (driver_sets_no_path (override credentialsPath) events) as Hnone.
    assert (Hnotin : ~ In (SetCredentialsPath path)
                       (effects (run events (runAuthServer initializeOAuth2Client
                                                           (override credentialsPath))))).
    { intros H.
      assert (H' : In (SetCredentialsPath path)
                      (filter is_set_credentials
                         (effects (run events (runAuthServer initializeOAuth2Client
                                                             (override credentialsPath)))))).
      { apply filter_In. split; [exact H|reflexivity]. }
      rewrite Hnone in H'. exact H'. }
    unfold override_effects, override in *.
    destruct credentialsPath as [v|]; cbn [truthy] in *;
      [|cbn in Hin; contradiction].
    revert Hin Hnone Hnotin.
    destruct (String.eqb_spec v "") as [Hempty|Hne]; cbn [negb];
      intros Hin Hnone Hnotin; [cbn in Hin; contradiction|].
    cbn [app In] in Hin. destruct Hin as [E|Hin]; [|contradiction].
    injection E as E. subst v. repeat split.
    + exact Hne.
    + unfold parseAuthServerArgs in Hparse. cbv zeta in Hparse.
      rewrite parse_loop_rest in Hparse.
      destruct (parse_rest_accepts_values _ None path Hparse) as [H|H];
        [discriminate H|exact H].
    + eexists. split; [reflexivity|exact Hnone].
  - exfalso.
    assert (Hexit : exitCode (main initializeOAuth2Client argv) = Some code0).
    { unfold main. rewrite Hparse. reflexivity. }
    rewrite (run_exited events _ code0 Hexit) in Hin.
    unfold main in Hin. rewrite Hparse in Hin. cbn in Hin.
    destruct Hin as [H|[H|[]]]; discriminate H.
Qed.

End DriverMore.

(** ** The further properties at concrete runs *)

Lemma parser_accepts_iff_every_option_has_value_witness :
  (exists credentialsPath,
      parseAuthServerArgs ["node"; "auth-server.js"; "-v"; "--credentials-file"; "k.json"]
      = Returned credentialsPath)
  /\ some_option_lacks_value ["--credentials-file"; "--port"].
Proof.
  split.
  - apply (proj1 (parser_accepts_iff_every_option_has_value
                    "node" "auth-server.js" ["-v"; "--credentials-file"; "k.json"])).
    intros [|[|[|i]]] Hi; cbn in Hi; try discriminate Hi.
    + exists "k.json". split; reflexivity.
    + destruct i; discriminate Hi.
  - apply (proj1 (proj2 (parser_accepts_iff_every_option_has_value
                           "node" "auth-server.js" ["--credentials-file"; "--port"]))).
    exists "Option --credentials-file requires a value", 1%Z. reflexivity.
Defined.

Lemma no_path_iff_option_absent_witness :
  parseAuthServerArgs ["node"; "auth-server.js"; "--verbose"; "keys.json"]
  = Returned None.
Proof.
  apply (no_path_iff_option_absent "node" "auth-server.js" ["--verbose"; "keys.json"]).
  cbn. intros [H|[H|[]]]; discriminate H.
Defined.

Lemma startup_outcome_iff_witness :
  exitCode (runAuthServer (ops := specAuthServer credential_present) client_ready None)
  = Some 0%Z
  /\ exitCode (runAuthServer (ops := specAuthServer ports_taken) client_ready None)
     = Some 1%Z
  /\ exitCode (runAuthServer (ops := specAuthServer ports_free) client_ready None)
     = None.
Proof.
  split; [|split].
  - apply (proj1 (startup_outcome_iff (ops := specAuthServer credential_present)
                    client_ready None)).
    exists tt, (fst (server_start true (fresh credential_present))), true.
    repeat split.
  - apply (proj1 (proj2 (startup_outcome_iff (ops := specAuthServer ports_taken)
                           client_ready None))).
    right. right.
    exists tt, (fst (server_start true (fresh ports_taken))). repeat split.
  - apply (proj1 (proj2 (proj2 (startup_outcome_iff (ops := specAuthServer ports_free)
                                  client_ready None)))).
    exists tt, (fst (server_start true (fresh ports_free))). repeat split.
Defined.

Lemma startup_stops_only_after_a_throw_witness :
  stop_calls (effects (runAuthServer (ops := throwingAuthServer) client_ready None)) = 1
  /\ stop_calls
       (effects (runAuthServer (ops := specAuthServer ports_taken) client_ready None))
     = 0
  /\ stop_calls
       (effects (runAuthServer (ops := specAuthServer ports_free) client_broken None))
     = 0.
Proof.
  split; [|split].
  - destruct (startup_stops_only_after_a_throw (ops := throwingAuthServer)
                client_ready None) as (H & _).
    apply (H tt false (ErrorObject "listen EACCES")); reflexivity.
  - destruct (startup_stops_only_after_a_throw (ops := specAuthServer ports_taken)
                client_ready None) as (_ & _ & H).
    apply (H tt (fst (server_start true (fresh ports_taken))) false); reflexivity.
  - destruct (startup_stops_only_after_a_throw (ops := specAuthServer ports_free)
                client_broken None) as (_ & H & _).
    apply (H (ErrorObject "Error loading OAuth keys")). reflexivity.
Defined.


Lemma interrupt_after_tick_stops_again_witness :
  stop_calls
    (effects (run (ops := specAuthServer ports_free)
                  (browser_completes ++ [TimerTick; Sigint])
                  (runAuthServer (ops := specAuthServer ports_free) client_ready None)))
  = 2.
Proof.
  apply (interrupt_after_tick_stops_again (ops := specAuthServer ports_free)
           client_ready None browser_completes); reflexivity.
Defined.

Lemma main_behaves_as_runAuthServer_witness :
  exitCode
    (run (ops := specAuthServer ports_free) (browser_completes ++ [TimerTick])
         (main (ops := specAuthServer ports_free) client_ready
               ["node"; "auth-server.js"; "--credentials-file"; "k.json"]))
  = exitCode
      (run (ops := specAuthServer ports_free) (browser_completes ++ [TimerTick])
           (runAuthServer (ops := specAuthServer ports_free) client_ready
                          (override (Some "k.json")))).
Proof.
  apply (main_behaves_as_runAuthServer (ops := specAuthServer ports_free) client_ready
           ["node"; "auth-server.js"; "--credentials-file"; "k.json"] (Some "k.json")
           (browser_completes ++ [TimerTick])).
  reflexivity.
Defined.


Lemma credentials_path_set_once_first_and_valid_witness :
  "k.json" <> "" /\ startsWith "k.json" "--" = false.
Proof.
  destruct (credentials_path_set_once_first_and_valid
              (ops := specAuthServer credential_present) client_ready
              ["node"; "auth-server.js"; "--credentials-file"; "k.json"]
              [Sigint] "k.json") as (_ & Hne & Hdash & _).
  - cbn. left. reflexivity.
  - split; assumption.
Defined.
